(** * libratom.cli.utils: command-line interface utilities

    A shallow embedding of [src/libratom/cli/utils.py] and the properties
    of its three entry points: [validate_out_path],
    [validate_version_string] and [list_spacy_models].

    Conventions of the embedding.
    - A Python [str] is the list of its code points.
    - An exception is a value of [exn]; a call that may raise returns an
      [outcome].
    - The effects of [list_spacy_models] (the HTTP request, the JSON
      decoding, the queries to the package registry and the printed table)
      are recorded, in program order, in a trace of [event]s threaded
      through a small state-and-error monad. *)

From Stdlib Require Import String Ascii.
From Stdlib Require Import List ZArith NArith Lia Bool Permutation Sorted.
Import ListNotations.

Set Implicit Arguments.

(* ================================================================== *)
(** * Part I: definitions                                              *)
(* ================================================================== *)

(** ** Python strings *)

Module PyStr.

Definition char := N.
Definition str := list char.

(** An ASCII literal as a [str]. *)
Definition of_string (s : string) : str :=
  map N_of_ascii (list_ascii_of_string s).

Definition hyphen : char := 45%N.
Definition dot : char := 46%N.
Definition dquote : char := 34%N.

(** [s.startswith(prefix)] *)
Fixpoint startswith (s prefix : str) {struct prefix} : bool :=
  match prefix, s with
  | [], _ => true
  | _ :: _, [] => false
  | p :: prefix', c :: s' => N.eqb c p && startswith s' prefix'
  end.

(** [s.split(sep)] for a one-character separator: the string is cut at
    EVERY occurrence of [sep]; the result has one more element than
    there are occurrences, and is never empty. *)
Fixpoint split (sep : char) (s : str) : list str :=
  match s with
  | [] => [[]]
  | c :: s' =>
      if N.eqb c sep then [] :: split sep s'
      else match split sep s' with
           | w :: ws => (c :: w) :: ws
           | [] => [[c]]
           end
  end.

(** Comparison of strings: lexicographic on code points. *)
Definition compare (a b : str) : comparison := list_compare N.compare a b.

(** [a < b] *)
Definition ltb (a b : str) : bool :=
  match compare a b with Lt => true | _ => false end.

(** [a <= b] *)
Definition leb (a b : str) : bool :=
  match compare a b with Gt => false | _ => true end.

End PyStr.

Import PyStr.

(** ** [list.sort(key=...)]

    Python's sort is stable and compares the keys with [<].  A stable sort
    is determined by these two facts (see [PySortFacts.sort_unique]
    below), so it is modelled by the simplest stable algorithm: insertion
    from the right, where an element goes after the elements whose key is
    strictly smaller and before every other one. *)

Module PySort.
Section Sort.
Variables (A K : Type) (key : A -> K) (lt : K -> K -> bool).

Fixpoint insert (x : A) (l : list A) : list A :=
  match l with
  | [] => [x]
  | y :: l' => if lt (key y) (key x) then y :: insert x l' else x :: y :: l'
  end.

Fixpoint sort (l : list A) : list A :=
  match l with
  | [] => []
  | x :: l' => insert x (sort l')
  end.

(** [a] may stand before [b]: the key of [b] is not below that of [a]. *)
Definition key_le (a b : A) : Prop := lt (key b) (key a) = false.

(** The elements of key [k]. *)
Definition with_key (eq_dec : forall a b : K, {a = b} + {a <> b})
    (k : K) (l : list A) : list A :=
  filter (fun a => if eq_dec (key a) k then true else false) l.
End Sort.
End PySort.

(** ** Exceptions and outcomes *)

Inductive exn : Type :=
| ValueError                      (* tuple unpacking of a wrong length *)
| JSONDecodeError                 (* raised by json.loads *)
| DistributionNotFound            (* pkg_resources: nothing installed *)
| InvalidRequirement              (* pkg_resources: not a project name *)
| VersionConflict                 (* pkg_resources: another version *)
| OSError (errno : Z)             (* a system call that failed *)
| BadParameter (message : str).   (* click.BadParameter *)

Inductive outcome (A : Type) : Type :=
| Returned (a : A)
| Raised (e : exn).
Arguments Raised {A} e.

(** ** Regular expressions, as used by [re.compile(...).match] *)

Module Re.

Inductive regex : Type :=
| Void                              (* matches nothing *)
| Eps                               (* the empty string *)
| Class (p : char -> bool)          (* one character of a class *)
| Cat (r1 r2 : regex)
| Alt (r1 r2 : regex)
| Star (r : regex).

(** [r+] *)
Definition Plus (r : regex) : regex := Cat r (Star r).

(** The language of a pattern. *)
Inductive matches : regex -> str -> Prop :=
| MEps : matches Eps []
| MClass p c : p c = true -> matches (Class p) [c]
| MCat r1 r2 s1 s2 :
    matches r1 s1 -> matches r2 s2 -> matches (Cat r1 r2) (s1 ++ s2)
| MAltL r1 r2 s : matches r1 s -> matches (Alt r1 r2) s
| MAltR r1 r2 s : matches r2 s -> matches (Alt r1 r2) s
| MStarNil r : matches (Star r) []
| MStarCons r s1 s2 :
    matches r s1 -> matches (Star r) s2 -> matches (Star r) (s1 ++ s2).

Fixpoint nullable (r : regex) : bool :=
  match r with
  | Void => false
  | Eps => true
  | Class _ => false
  | Cat r1 r2 => nullable r1 && nullable r2
  | Alt r1 r2 => nullable r1 || nullable r2
  | Star _ => true
  end.

(** Brzozowski derivative: the pattern of what may follow [c]. *)
Fixpoint deriv (c : char) (r : regex) : regex :=
  match r with
  | Void => Void
  | Eps => Void
  | Class p => if p c then Eps else Void
  | Cat r1 r2 =>
      if nullable r1 then Alt (Cat (deriv c r1) r2) (deriv c r2)
      else Cat (deriv c r1) r2
  | Alt r1 r2 => Alt (deriv c r1) (deriv c r2)
  | Star r1 => Cat (deriv c r1) (Star r1)
  end.

(** Truth value of [pattern.match(s)]: the pattern is anchored at the
    start of [s] only, so the call yields a match object exactly when
    some prefix of [s] is in the language of the pattern. *)
Fixpoint re_match (r : regex) (s : str) : bool :=
  nullable r ||
  match s with
  | [] => false
  | c :: s' => re_match (deriv c r) s'
  end.

End Re.

(** ** The module [libratom.cli.utils] *)

(** *** [validate_out_path] *)

(** A [pathlib.Path]; [path_str] is what [str(value)] and the f-string
    give. *)
Record Path : Type := { path_str : str }.

(** What a path resolves to on disk. *)
Inductive FileKind : Type := RegularFile | Directory | OtherKind.

(** What [os.stat] answers for a path, symbolic links followed: the kind
    of the object found, or the error of the system call, or the
    [ValueError] Python raises for a path the system cannot be asked
    about (one with a null character). *)
Inductive StatResult : Type :=
| StatKind (kind : FileKind)
| StatError (errno : Z)
| StatValueError.

(** The state of the file system. *)
Definition FileSystem := Path -> StatResult.

Definition ENOENT : Z := 2.
Definition EBADF : Z := 9.
Definition ENOTDIR : Z := 20.
Definition ENAMETOOLONG : Z := 36.
Definition ELOOP : Z := 40.

(** pathlib's [_ignore_error]: the errors that mean "there is no such
    file". *)
Definition ignore_error (errno : Z) : bool :=
  existsb (Z.eqb errno) [ENOENT; ENOTDIR; EBADF; ELOOP].

(** [value.is_file()]: whether the path is a regular file; an error of
    [stat] that is not ignored is raised again. *)
Definition is_file (value : Path) (fs : FileSystem) : outcome bool :=
  match fs value with
  | StatKind RegularFile => Returned true
  | StatKind _ => Returned false
  | StatError errno =>
      if ignore_error errno then Returned false else Raised (OSError errno)
  | StatValueError => Returned false
  end.

(** The file system is threaded through the call, so that what the call
    leaves behind can be compared with what it found.  [ctx] and [param]
    are the two arguments click passes and the function ignores. *)
Definition validate_out_path {C P : Type} (ctx : C) (param : P)
    (value : Path) (fs : FileSystem) : outcome Path * FileSystem :=
  match is_file value fs with
  | Raised e => (Raised e, fs)
  | Returned true =>
      (Raised (BadParameter (of_string "File " ++ [dquote] ++ path_str value
                               ++ [dquote] ++ of_string " already exists.")),
       fs)
  | Returned false => (Returned value, fs)
  end.

(** *** [validate_version_string] *)

Section VersionString.

(** [\d] in a [str] pattern is the class of Unicode decimal digits
    (category Nd); its table belongs to the interpreter, not to this
    repository, and is a parameter here. *)
Variable isdecimal : char -> bool.

(** [re.compile(r"\d+(?:\.\d+)+")] *)
Definition version_pattern : Re.regex :=
  Re.Cat (Re.Plus (Re.Class isdecimal))
         (Re.Plus (Re.Cat (Re.Class (N.eqb dot))
                          (Re.Plus (Re.Class isdecimal)))).

Definition validate_version_string {C P : Type} (ctx : C) (param : P)
    (value : str) : outcome str :=
  if negb (Re.re_match version_pattern value) then
    Raised (BadParameter value)
  else Returned value.

(** The accepted shape, in the words of the specification: one or more
    digits, followed by one or more groups of a dot and one or more
    digits. *)
Definition digits (ds : str) : Prop :=
  ds <> [] /\ Forall (fun c => isdecimal c = true) ds.

Definition dot_group (g : str) : Prop :=
  exists ds, g = dot :: ds /\ digits ds.

Definition dotted_version (p : str) : Prop :=
  exists ds groups,
    digits ds /\ groups <> [] /\ Forall dot_group groups /\
    p = ds ++ List.concat groups.

(** ... anchored at the start of the string and not at its end. *)
Definition starts_with_version (value : str) : Prop :=
  exists p rest, value = p ++ rest /\ dotted_version p.

End VersionString.

(** The decimal digits of ASCII, which every table of [\d] contains. *)
Definition ascii_digit (c : char) : bool := (48 <=? c)%N && (c <=? 57)%N.

(** *** [list_spacy_models] *)

(** A release object of the decoded response; only its ["name"] field is
    read. *)
Record Release : Type := { name : str }.

(** The object [requests.get] returns: [ok] is [response.ok], [content]
    the undecoded body. *)
Record Response : Type := { ok : bool; content : list Byte.byte }.

(** What lies outside the program:
    - the remote end point, as the response it gives to a GET of a URL;
    - [json.loads], restricted to the shape the end point documents (an
      array of objects with a string ["name"] field);
    - the registry of installed distributions, as what
      [pkg_resources.get_distribution(n).version] gives: the version of
      the distribution found, or the exception raised
      ([DistributionNotFound] when nothing of that name is installed,
      another one when the name cannot be looked up at all). *)
Record World : Type := {
  requests_get : str -> Response;
  json_loads : list Byte.byte -> outcome (list Release);
  get_distribution : str -> outcome str
}.

(** A cell of the table is a string or [None]. *)
Definition cell := option str.
Definition row := list cell.
Definition table := list row.

(** The observable steps of a run. *)
Inductive event : Type :=
| EvGet (url : str)                     (* requests.get(url=...) *)
| EvJsonLoads (body : list Byte.byte)   (* json.loads(response.content) *)
| EvGetDistribution (n : str)           (* pkg_resources.get_distribution *)
| EvPrint (t : table).                  (* print(tabulate(t, ...)) *)

(** Computations that append to the trace and may raise. *)
Definition M (A : Type) : Type := list event -> outcome A * list event.

Definition ret {A : Type} (a : A) : M A := fun t => (Returned a, t).

Definition raise {A : Type} (e : exn) : M A := fun t => (Raised e, t).

Definition bind {A B : Type} (m : M A) (k : A -> M B) : M B :=
  fun t =>
    match m t with
    | (Returned a, t') => k a t'
    | (Raised e, t') => (Raised e, t')
    end.

Definition emit (e : event) : M unit := fun t => (Returned tt, t ++ [e]).

Definition lift {A : Type} (o : outcome A) : M A := fun t => (o, t).

Notation "x <- m ;; k" := (bind m (fun x => k))
  (at level 61, m at next level, right associativity).
Notation "m ;;; k" := (bind m (fun _ => k))
  (at level 61, right associativity).

Definition releases_url : str :=
  of_string "https://api.github.com/repos/explosion/spacy-models/releases".

Definition header : row :=
  [Some (of_string "spaCy model");
   Some (of_string "installed version");
   Some (of_string "latest version")].

(** Lines 85-92: the two comprehensions.  [if model_name:] is false for
    [None] and for the empty string. *)
Definition retained (model_name : option str) (releases : list Release)
  : list (list str) :=
  match model_name with
  | Some ((_ :: _) as model_name) =>
      map (fun release => split hyphen (name release))
          (filter (fun release => startswith (name release) model_name)
                  releases)
  | _ => map (fun release => split hyphen (name release)) releases
  end.

(** [lambda x: x[0]]; [x] is a result of [split] and so is never empty. *)
Definition sort_key (x : list str) : str := hd [] x.

(** Lines 94-95: [releases.sort(key=lambda x: x[0])] *)
Definition sort_releases (releases : list (list str)) : list (list str) :=
  PySort.sort sort_key ltb releases.

(** Lines 102-105: the query of the registry, under a [try] that
    catches [DistributionNotFound] and nothing else. *)
Definition installed_model_version (w : World) (n : str) : M cell :=
  emit (EvGetDistribution n) ;;;
  match get_distribution w n with
  | Returned version => ret (Some version)
  | Raised DistributionNotFound => ret None
  | Raised e => raise e
  end.

(** Lines 99-107: the loop.  [for name, version in releases] unpacks each
    element into exactly two variables and raises [ValueError] on any
    other length. *)
Fixpoint fill_table (w : World) (releases : list (list str)) (tbl : table)
  : M table :=
  match releases with
  | [] => ret tbl
  | [n; version] :: rest =>
      v <- installed_model_version w n ;;
      fill_table w rest (tbl ++ [[Some n; v; Some version]])
  | _ :: _ => raise ValueError
  end.

Definition list_spacy_models (w : World) (model_name : option str) : M Z :=
  emit (EvGet releases_url) ;;;
  let response := requests_get w releases_url in
  if negb (ok response) then ret (-1)%Z
  else
    releases <- (emit (EvJsonLoads (content response)) ;;;
                 lift (json_loads w (content response))) ;;
    let releases := retained model_name releases in
    let releases := sort_releases releases in
    tbl <- fill_table w releases [header] ;;
    emit (EvPrint tbl) ;;;
    ret 0%Z.

(** ** Vocabulary of the statements *)

(** The version the registry has for a name, if it has one. *)
Definition installed (w : World) (n : str) : option str :=
  match get_distribution w n with
  | Returned version => Some version
  | Raised _ => None
  end.

(** The registry answers for a name: it finds a distribution or says
    that there is none; it raises nothing else. *)
Definition answers (w : World) (n : str) : Prop :=
  forall e, get_distribution w n = Raised e -> e = DistributionNotFound.

(** The row a well-formed release contributes to the report. *)
Definition release_row (w : World) (parts : list str) : row :=
  match parts with
  | [n; version] => [Some n; installed w n; Some version]
  | _ => []
  end.

(** The first column of a row of the report. *)
Definition row_name (r : row) : str :=
  match r with
  | Some n :: _ => n
  | _ => []
  end.

(** The report a run printed, if it printed one. *)
Fixpoint printed (t : list event) : option table :=
  match t with
  | [] => None
  | EvPrint tbl :: _ => Some tbl
  | _ :: t' => printed t'
  end.

(** The rows of a report: the table without its header line. *)
Definition rows (tbl : table) : list row := tl tbl.

(** An identifier of the form the end point documents: exactly one
    hyphen. *)
Definition well_formed (identifier : str) : Prop :=
  count_occ N.eq_dec identifier hyphen = 1.

(** The releases the filter lets through, in the words of the
    specification: with a filter, those whose identifier starts with it;
    without one, all of them. *)
Definition selected (filter_name : option str) (release : Release) : bool :=
  match filter_name with
  | Some f => startswith (name release) f
  | None => true
  end.

(** The identifier of a release cut at its hyphens. *)
Definition parts_of (release : Release) : list str :=
  split hyphen (name release).

Definition str_eq_dec : forall a b : str, {a = b} + {a <> b} :=
  list_eq_dec N.eq_dec.

(** The elements of a list whose name (under [f]) is [k]. *)
Definition named {A : Type} (f : A -> str) (k : str) (l : list A) : list A :=
  filter (fun a => if str_eq_dec (f a) k then true else false) l.

(** An element of the sorted list the loop gets through: a pair whose
    first component the registry answers for. *)
Definition entry_ok (w : World) (parts : list str) : Prop :=
  length parts = 2 /\ answers w (sort_key parts).

(** The model name of a release: what precedes its first hyphen. *)
Definition model_of (release : Release) : str := sort_key (parts_of release).

(** A release that can be reported: its identifier has exactly one
    hyphen and the registry answers for its model name. *)
Definition reportable (w : World) (release : Release) : Prop :=
  well_formed (name release) /\ answers w (model_of release).

(** A run from the empty trace. *)
Definition run (w : World) (model_name : option str)
  : outcome Z * list event :=
  list_spacy_models w model_name [].

(** ** Concrete worlds used in the examples *)

(** Letters and digits of ASCII: what a project name may start with. *)
Definition ascii_alnum (c : char) : bool :=
  ((48 <=? c) && (c <=? 57) || (65 <=? c) && (c <=? 90)
   || (97 <=? c) && (c <=? 122))%N.

(** A world from a verdict of the request, the names of the releases
    listed and the installed distributions.  Its registry refuses, as
    pkg_resources does, a name that does not start with a letter or a
    digit. *)
Definition mk_world (is_ok : bool) (names : list string)
    (reg : list (string * string)) : World :=
  {| requests_get := fun _ => {| ok := is_ok; content := [] |};
     json_loads := fun _ =>
       Returned (map (fun s => {| name := of_string s |}) names);
     get_distribution := fun n =>
       match n with
       | [] => Raised InvalidRequirement
       | c :: _ =>
           if ascii_alnum c then
             match find (fun p => if list_eq_dec N.eq_dec
                                       (of_string (fst p)) n
                                  then true else false) reg with
             | Some p => Returned (of_string (snd p))
             | None => Raised DistributionNotFound
             end
           else Raised InvalidRequirement
       end |}.

(** A file system with one regular file, one directory and one name too
    long to be looked up. *)
Definition example_fs : FileSystem :=
  fun p =>
    if str_eq_dec (path_str p) (of_string "out.db") then
      StatKind RegularFile
    else if str_eq_dec (path_str p) (of_string "reports") then
      StatKind Directory
    else if (255 <? length (path_str p))%nat then StatError ENAMETOOLONG
    else StatError ENOENT.

(** The end-to-end scenario of the specification. *)
Definition scenario_world : World :=
  mk_world true ["en_core_web_sm-2.3.1"; "de_core_news_sm-2.3.0"]%string
           [("en_core_web_sm", "2.2.0")]%string.

(** The same releases behind a request that fails. *)
Definition unreachable_world : World :=
  mk_world false ["en_core_web_sm-2.3.1"; "de_core_news_sm-2.3.0"]%string
           [("en_core_web_sm", "2.2.0")]%string.



Definition stray_name_world : World :=
  mk_world true ["en_core_web_sm-2.3.1"; "README"]%string
           [("en_core_web_sm", "2.2.0")]%string.


(** A path longer than a file name may be. *)
Definition long_path : Path := {| path_str := repeat 97%N 300 |}.

(** Two versions of one model, listed in either order. *)
Definition newest_first_world : World :=
  mk_world true ["en_core_web_sm-2.3.1"; "de_core_news_sm-2.3.0";
                 "en_core_web_sm-2.3.0"]%string
           [("en_core_web_sm", "2.2.0")]%string.

Definition oldest_first_world : World :=
  mk_world true ["en_core_web_sm-2.3.0"; "de_core_news_sm-2.3.0";
                 "en_core_web_sm-2.3.1"]%string
           [("en_core_web_sm", "2.2.0")]%string.

(** A data row of a report, from ASCII literals. *)
Definition mk_row (n : string) (installed_version : option string)
    (latest : string) : row :=
  [Some (of_string n); option_map of_string installed_version;
   Some (of_string latest)].

Definition mk_release (s : string) : Release := {| name := of_string s |}.

(** ** Further vocabulary *)

(** [sep.join(parts)] for a one-character separator. *)
Fixpoint join (sep : char) (parts : list str) : str :=
  match parts with
  | [] => []
  | a :: rest =>
      match rest with
      | [] => a
      | _ :: _ => a ++ sep :: join sep rest
      end
  end.

(** The release identifier a row of the report stands for. *)
Definition row_identifier (r : row) : str :=
  match r with
  | [Some n; _; Some version] => n ++ hyphen :: version
  | _ => []
  end.

(** *** [MockContext] *)

(** [__init__(self, **__)] stores nothing: an instance has no state. *)
Inductive MockContext : Type := mock_context.

Definition MockContext_init {V : Type} (kwargs : list (str * V))
  : MockContext := mock_context.

(** [__getattribute__(self, item)]: [None] whatever the name. *)
Definition MockContext_getattribute {V : Type} (self : MockContext)
    (item : str) : option V := None.

(** [__enter__(self)] *)
Definition MockContext_enter (self : MockContext) : M MockContext :=
  ret self.

(** [__exit__(self, *excinfo)]: the body is [pass], so the call returns
    [None], whose truth value is false. *)
Definition MockContext_exit (self : MockContext) (excinfo : option exn)
  : M bool := ret false.

(** The [with] statement over a context manager given by its two
    special methods: [with mgr as x: body].  [__exit__] receives the
    exception of the body, if any, and swallows it when it answers
    true; the statement then completes without a value. *)
Definition with_ {S X A : Type} (enter : S -> M X)
    (exit : S -> option exn -> M bool) (mgr : S) (body : X -> M A)
  : M (option A) :=
  fun t =>
    match enter mgr t with
    | (Raised e, t1) => (Raised e, t1)
    | (Returned x, t1) =>
        match body x t1 with
        | (Returned a, t2) =>
            match exit mgr None t2 with
            | (Returned _, t3) => (Returned (Some a), t3)
            | (Raised e', t3) => (Raised e', t3)
            end
        | (Raised e, t2) =>
            match exit mgr (Some e) t2 with
            | (Returned true, t3) => (Returned None, t3)
            | (Returned false, t3) => (Raised e, t3)
            | (Raised e', t3) => (Raised e', t3)
            end
        end
    end.

(** *** Further worlds *)

(** A successful response whose body is not JSON. *)
Definition garbled_world : World :=
  {| requests_get := fun _ => {| ok := true; content := [Byte.x3c] |};
     json_loads := fun _ => Raised JSONDecodeError;
     get_distribution := fun _ => Raised DistributionNotFound |}.

(** A response with a name without hyphen that sorts last. *)
Definition late_failure_world : World :=
  mk_world true ["en_core_web_sm-2.3.1"; "xx_broken";
                 "de_core_news_sm-2.3.0"]%string
           [("en_core_web_sm", "2.2.0")]%string.

(** A response with a name the registry refuses, sorted last. *)
Definition refused_name_world : World :=
  mk_world true ["~tmp-0.1"; "en_core_web_sm-2.3.1"]%string
           [("en_core_web_sm", "2.2.0")]%string.

(** A response with models of three languages. *)
Definition three_models_world : World :=
  mk_world true ["fr_core_news_sm-2.3.0"; "en_core_web_sm-2.3.1";
                 "en_core_web_md-2.3.1"]%string
           [("en_core_web_sm", "2.2.0")]%string.

(* ================================================================== *)
(** * Part II: properties                                              *)
(* ================================================================== *)

(** ** Strings *)

Module PyStrFacts.

Lemma N_compare_trans (x y z : N) (c : comparison) :
  N.compare x y = c -> N.compare y z = c -> N.compare x z = c.
Proof.
  destruct c; intros H1 H2.
  - apply N.compare_eq_iff in H1, H2. subst. apply N.compare_refl.
  - rewrite N.compare_lt_iff in *. lia.
  - rewrite N.compare_gt_iff in *. lia.
Qed.

Lemma compare_eq (a b : str) : compare a b = Eq <-> a = b.
Proof. apply list_compare_refl, N.compare_eq_iff. Qed.

Lemma compare_antisym (a b : str) : compare b a = CompOpp (compare a b).
Proof.
  apply list_compare_antisym.
  - apply N.compare_eq_iff.
  - intros x y. apply N.compare_antisym.
Qed.

Lemma compare_trans (a b c : str) (o : comparison) :
  compare a b = o -> compare b c = o -> compare a c = o.
Proof.
  apply list_compare_trans.
  - apply N.compare_eq_iff.
  - apply N_compare_trans.
  - intros x y. apply N.compare_antisym.
Qed.

Lemma ltb_irrefl (a : str) : ltb a a = false.
Proof.
  unfold ltb. now rewrite (proj2 (compare_eq a a) eq_refl).
Qed.

Lemma ltb_asym (a b : str) : ltb a b = true -> ltb b a = false.
Proof.
  unfold ltb. rewrite (compare_antisym a b).
  destruct (compare a b); simpl; congruence.
Qed.

(** [leb] is the negation of the converse of [ltb]. *)
Lemma leb_ltb (a b : str) : leb a b = negb (ltb b a).
Proof.
  unfold leb, ltb. rewrite (compare_antisym a b).
  destruct (compare a b); reflexivity.
Qed.

Lemma leb_trans (a b c : str) :
  ltb b a = false -> ltb c b = false -> ltb c a = false.
Proof.
  unfold ltb. rewrite (compare_antisym a b), (compare_antisym b c),
    (compare_antisym a c).
  destruct (compare a b) eqn:Hab; simpl; try discriminate; intros _.
  - apply compare_eq in Hab. subst b. trivial.
  - destruct (compare b c) eqn:Hbc; simpl; try discriminate; intros _.
    + apply compare_eq in Hbc. subst c. now rewrite Hab.
    + now rewrite (@compare_trans a b c Lt Hab Hbc).
Qed.

Lemma leb_antisym (a b : str) :
  ltb a b = false -> ltb b a = false -> a = b.
Proof.
  unfold ltb. rewrite (compare_antisym a b).
  destruct (compare a b) eqn:Hab; simpl; try discriminate.
  intros _ _. now apply compare_eq.
Qed.

(** [startswith] decides "[prefix] is an initial segment of [s]". *)
Lemma startswith_spec (s prefix : str) :
  startswith s prefix = true <-> exists rest, s = prefix ++ rest.
Proof.
  revert s. induction prefix as [|p prefix IH]; intros s; simpl.
  - split; [intros _; now exists s | trivial].
  - destruct s as [|c s].
    + split; [discriminate | intros [rest H]; discriminate].
    + rewrite andb_true_iff, N.eqb_eq, IH. split.
      * intros [-> [rest ->]]. now exists rest.
      * intros [rest H]. injection H as -> ->.
        split; [trivial | now exists rest].
Qed.

Lemma startswith_nil (s : str) : startswith s [] = true.
Proof. reflexivity. Qed.

Lemma split_nonempty (sep : char) (s : str) : split sep s <> [].
Proof.
  destruct s as [|c s]; simpl; [discriminate|].
  destruct (N.eqb c sep); [discriminate|].
  destruct (split sep s); discriminate.
Qed.

(** One more part than there are separators. *)
Lemma split_length (sep : char) (s : str) :
  length (split sep s) = S (count_occ N.eq_dec s sep).
Proof.
  induction s as [|c s IH]; simpl; [reflexivity|].
  destruct (N.eqb_spec c sep) as [->|Hne].
  - destruct (N.eq_dec sep sep); [|congruence]. simpl. now rewrite IH.
  - destruct (N.eq_dec c sep); [congruence|].
    rewrite <- IH. pose proof (split_nonempty sep s).
    destruct (split sep s); [congruence | reflexivity].
Qed.

(** A string without separator is its own single part. *)
Lemma split_one (sep : char) (s b : str) :
  split sep s = [b] <-> s = b /\ ~ In sep b.
Proof.
  revert b. induction s as [|c s IH]; intros b; simpl.
  - split.
    + intros H. injection H as H. subst b. auto.
    + intros [H _]. now subst b.
  - pose proof (split_nonempty sep s) as Hne.
    destruct (N.eqb_spec c sep) as [Heq|Hc].
    + subst c. split.
      * intros H. injection H as _ H. contradiction.
      * intros [H Hb]. subst b. exfalso. apply Hb. now left.
    + destruct (split sep s) as [|w ws] eqn:Hs; [contradiction|]. split.
      * intros H. injection H as H1 H2. subst b ws.
        destruct (proj1 (IH w) eq_refl) as [Hw Hn]. subst w.
        split; [reflexivity|].
        simpl. intros [H|H]; [congruence | contradiction].
      * intros [H Hb]. subst b.
        assert (Hw : w :: ws = [s]).
        { apply IH. split; [reflexivity|]. intros H. apply Hb. now right. }
        injection Hw as H1 H2. now subst w ws.
Qed.

(** A string is cut in two exactly when it has one separator; the first
    part is what precedes the separator and the second what follows. *)
Lemma split_two (sep : char) (s a b : str) :
  split sep s = [a; b] <->
  s = a ++ sep :: b /\ ~ In sep a /\ ~ In sep b.
Proof.
  revert a. induction s as [|c s IH]; intros a; simpl.
  - split; [discriminate|]. intros [H _]. now destruct a.
  - pose proof (split_nonempty sep s) as Hne.
    destruct (N.eqb_spec c sep) as [Heq|Hc].
    + subst c. split.
      * intros H. injection H as H1 H2. subst a.
        apply split_one in H2. destruct H2 as [H2 Hb]. subst b.
        simpl. auto.
      * intros [H [Ha Hb]]. destruct a as [|x a]; simpl in H.
        -- injection H as H. subst s. f_equal. apply split_one. auto.
        -- injection H as H1 H2. subst x. exfalso. apply Ha. now left.
    + destruct (split sep s) as [|w ws] eqn:Hs; [contradiction|]. split.
      * intros H. injection H as H1 H2. subst a ws.
        destruct (proj1 (IH w) eq_refl) as [Hw [Hn Hb]]. subst s.
        repeat split; trivial.
        simpl. intros [H|H]; [congruence | contradiction].
      * intros [H [Ha Hb]]. destruct a as [|x a]; simpl in H.
        -- injection H as H1 H2. congruence.
        -- injection H as H1 H2. subst x s.
           assert (Hw : w :: ws = [a; b]).
           { apply IH. repeat split; trivial.
             intros H. apply Ha. now right. }
           injection Hw as H1 H2. now subst w ws.
Qed.

End PyStrFacts.

(** ** Sorting *)

Module PySortFacts.
Section Sort.
Import PySort.
Variables (A K : Type) (key : A -> K) (lt : K -> K -> bool).
Variable eq_dec : forall a b : K, {a = b} + {a <> b}.
Hypothesis lt_irrefl : forall a, lt a a = false.
Hypothesis lt_asym : forall a b, lt a b = true -> lt b a = false.
Hypothesis le_trans :
  forall a b c, lt b a = false -> lt c b = false -> lt c a = false.
Hypothesis le_antisym :
  forall a b, lt a b = false -> lt b a = false -> a = b.

Local Abbreviation insert := (insert key lt).
Local Abbreviation sort := (sort key lt).
Local Abbreviation key_le := (key_le key lt).
Local Abbreviation with_key := (with_key key eq_dec).

Lemma insert_perm (x : A) (l : list A) : Permutation (insert x l) (x :: l).
Proof.
  induction l as [|y l IH]; simpl; [reflexivity|].
  destruct (lt (key y) (key x)); [|reflexivity].
  rewrite IH. apply perm_swap.
Qed.

Lemma sort_perm (l : list A) : Permutation (sort l) l.
Proof.
  induction l as [|x l IH]; simpl; [reflexivity|].
  rewrite insert_perm. now apply perm_skip.
Qed.

Lemma insert_sorted (x : A) (l : list A) :
  StronglySorted key_le l -> StronglySorted key_le (insert x l).
Proof.
  induction 1 as [|y l Hl IH Hy]; simpl.
  - constructor; constructor.
  - destruct (lt (key y) (key x)) eqn:Hyx.
    + constructor; [exact IH|].
      rewrite Forall_forall in *. intros z Hz.
      apply (Permutation_in _ (insert_perm x l)) in Hz.
      destruct Hz as [<-|Hz]; [|now apply Hy].
      now apply lt_asym.
    + constructor; [now constructor|].
      constructor; [exact Hyx|].
      rewrite Forall_forall in *. intros z Hz.
      eapply le_trans; [exact Hyx | exact (Hy z Hz)].
Qed.

Lemma sort_sorted (l : list A) : StronglySorted key_le (sort l).
Proof.
  induction l as [|x l IH]; simpl; [constructor | now apply insert_sorted].
Qed.

(** Insertion puts [x] before the elements of its own key. *)
Lemma insert_with_key (k : K) (x : A) (l : list A) :
  with_key k (insert x l) = with_key k (x :: l).
Proof.
  unfold PySort.with_key.
  induction l as [|y l IH]; simpl; [reflexivity|].
  destruct (lt (key y) (key x)) eqn:Hyx; [|reflexivity].
  simpl. rewrite IH. simpl.
  destruct (eq_dec (key y) k) as [Hy|Hy]; [|reflexivity].
  destruct (eq_dec (key x) k) as [Hx|Hx]; [|reflexivity].
  rewrite Hy, Hx, lt_irrefl in Hyx. discriminate.
Qed.

(** Stability: the elements of one key keep their relative order. *)
Lemma sort_stable (k : K) (l : list A) : with_key k (sort l) = with_key k l.
Proof.
  induction l as [|x l IH]; simpl; [reflexivity|].
  rewrite insert_with_key. unfold PySort.with_key in *. simpl.
  now rewrite IH.
Qed.

Lemma with_key_In (k : K) (x : A) (l : list A) :
  In x (with_key k l) <-> In x l /\ key x = k.
Proof.
  unfold PySort.with_key. rewrite filter_In.
  destruct (eq_dec (key x) k); intuition congruence.
Qed.

Lemma with_key_head (x : A) (l : list A) :
  with_key (key x) (x :: l) = x :: with_key (key x) l.
Proof.
  unfold PySort.with_key. simpl.
  destruct (eq_dec (key x) (key x)); [reflexivity | congruence].
Qed.

(** Two sorted lists with the same elements of each key, in the same
    order, are equal. *)
Lemma sorted_unique (l m : list A) :
  StronglySorted key_le l -> StronglySorted key_le m ->
  (forall k, with_key k l = with_key k m) -> l = m.
Proof.
  intros Hl. revert m.
  induction Hl as [|a l Hl IH Ha]; intros m Hm H.
  - destruct m as [|b m]; [reflexivity|].
    specialize (H (key b)). rewrite with_key_head in H. discriminate.
  - destruct Hm as [|b m Hm Hb].
    + specialize (H (key a)). rewrite with_key_head in H. discriminate.
    + rewrite Forall_forall in Ha, Hb.
      assert (Hab : key a = key b).
      { apply le_antisym.
        - assert (In a (with_key (key a) (b :: m))) as Hin.
          { rewrite <- (H (key a)), with_key_head. now left. }
          apply with_key_In in Hin. destruct Hin as [[<-|Hin] _].
          + apply lt_irrefl.
          + now apply Hb.
        - assert (In b (with_key (key b) (a :: l))) as Hin.
          { rewrite (H (key b)), with_key_head. now left. }
          apply with_key_In in Hin. destruct Hin as [[<-|Hin] _].
          + apply lt_irrefl.
          + now apply Ha. }
      assert (a = b) as <-.
      { pose proof (H (key a)) as Hk. rewrite with_key_head in Hk.
        rewrite Hab, with_key_head in Hk. now injection Hk. }
      f_equal. apply IH; [exact Hm|].
      intros k. specialize (H k). unfold PySort.with_key in *.
      simpl in H. destruct (eq_dec (key a) k); [now injection H | exact H].
Qed.

(** A sorted list that keeps the elements of each key of [l], in their
    order, is [sort l]: the model is the only stable sort there is. *)
Lemma sort_unique (l m : list A) :
  StronglySorted key_le m ->
  (forall k, with_key k m = with_key k l) -> m = sort l.
Proof.
  intros Hm H. apply sorted_unique; [exact Hm | apply sort_sorted|].
  intros k. now rewrite sort_stable.
Qed.

(** The result depends on the input only through the elements of each
    key and their relative order. *)
Lemma sort_ext (l m : list A) :
  (forall k, with_key k l = with_key k m) -> sort l = sort m.
Proof.
  intros H. apply sort_unique; [apply sort_sorted|].
  intros k. now rewrite sort_stable.
Qed.

End Sort.
End PySortFacts.

(** ** Regular expressions *)

Module ReFacts.
Import Re.

Lemma matches_nil_nullable (r : regex) (s : str) :
  matches r s -> s = [] -> nullable r = true.
Proof.
  induction 1 as [ | | r1 r2 s1 s2 _ IH1 _ IH2 | r1 r2 s _ IH
                 | r1 r2 s _ IH | | ]; intros E; simpl;
    try discriminate; trivial.
  - apply app_eq_nil in E. destruct E as [E1 E2].
    now rewrite IH1, IH2.
  - now rewrite IH.
  - rewrite IH by trivial. apply orb_true_r.
Qed.

Lemma nullable_spec (r : regex) : nullable r = true <-> matches r [].
Proof.
  split; [|intros H; now apply (matches_nil_nullable H)].
  induction r as [ | | p | r1 IH1 r2 IH2 | r1 IH1 r2 IH2 | r IH]; simpl;
    try discriminate.
  - constructor.
  - rewrite andb_true_iff. intros [H1 H2].
    apply (MCat (IH1 H1) (IH2 H2)).
  - rewrite orb_true_iff. intros [H|H].
    + apply MAltL; auto.
    + apply MAltR; auto.
  - constructor.
Qed.

Lemma deriv_sound (c : char) (r : regex) (s : str) :
  matches (deriv c r) s -> matches r (c :: s).
Proof.
  revert s.
  induction r as [ | | p | r1 IH1 r2 IH2 | r1 IH1 r2 IH2 | r IH];
    intros s; simpl; intros H.
  - inversion H.
  - inversion H.
  - destruct (p c) eqn:Hp; inversion H; subst. now constructor.
  - assert (Hcat : forall u, matches (Cat (deriv c r1) r2) u ->
                             matches (Cat r1 r2) (c :: u)).
    { intros u Hu. inversion Hu; subst.
      change (matches (Cat r1 r2) ((c :: s1) ++ s2)).
      constructor; auto. }
    destruct (nullable r1) eqn:Hn; [|now apply Hcat].
    inversion H; subst; [now apply Hcat|].
    change (matches (Cat r1 r2) ([] ++ c :: s)).
    constructor; [now apply nullable_spec | auto].
  - inversion H; subst; [apply MAltL | apply MAltR]; auto.
  - inversion H; subst.
    change (matches (Star r) ((c :: s1) ++ s2)).
    constructor; auto.
Qed.

Lemma deriv_complete (c : char) (r : regex) (s cs : str) :
  matches r cs -> cs = c :: s -> matches (deriv c r) s.
Proof.
  intros H. revert s.
  induction H as [ | p d Hp | r1 r2 s1 s2 H1 IH1 H2 IH2 | r1 r2 u _ IH
                 | r1 r2 u _ IH | | r s1 s2 H1 IH1 H2 IH2];
    intros s E; simpl; try discriminate.
  - injection E as -> <-. rewrite Hp. constructor.
  - destruct s1 as [|d s1]; simpl in E.
    + rewrite (matches_nil_nullable H1 eq_refl).
      apply MAltR. auto.
    + injection E as -> <-.
      specialize (IH1 s1 eq_refl).
      destruct (nullable r1); [apply MAltL|]; now constructor.
  - apply MAltL. auto.
  - apply MAltR. auto.
  - destruct s1 as [|d s1]; simpl in E.
    + now apply IH2.
    + injection E as -> <-. constructor; auto.
Qed.

Lemma deriv_spec (c : char) (r : regex) (s : str) :
  matches (deriv c r) s <-> matches r (c :: s).
Proof.
  split; [apply deriv_sound | intros H; now apply (deriv_complete H)].
Qed.

(** [pattern.match(s)] succeeds exactly when a prefix of [s] is in the
    language of the pattern. *)
Lemma re_match_spec (r : regex) (s : str) :
  re_match r s = true <-> exists p rest, s = p ++ rest /\ matches r p.
Proof.
  revert r. induction s as [|c s IH]; intros r; simpl.
  - rewrite orb_false_r, nullable_spec. split.
    + intros H. now exists [], [].
    + intros (p & rest & E & H). symmetry in E.
      apply app_eq_nil in E. destruct E as [-> _]. exact H.
  - rewrite orb_true_iff, nullable_spec, IH. split.
    + intros [H | (p & rest & -> & H)].
      * now exists [], (c :: s).
      * exists (c :: p), rest. split; [reflexivity|].
        now apply deriv_spec.
    + intros (p & rest & E & H). destruct p as [|d p]; [now left|].
      simpl in E. injection E as <- ->. right.
      exists p, rest. split; [reflexivity|]. now apply deriv_spec.
Qed.

Lemma matches_class (p : char -> bool) (s : str) :
  matches (Class p) s <-> exists c, s = [c] /\ p c = true.
Proof.
  split.
  - intros H. inversion H; subst. eauto.
  - intros (c & -> & H). now constructor.
Qed.

Lemma matches_cat (r1 r2 : regex) (s : str) :
  matches (Cat r1 r2) s <->
  exists s1 s2, s = s1 ++ s2 /\ matches r1 s1 /\ matches r2 s2.
Proof.
  split.
  - intros H. inversion H; subst. eauto.
  - intros (s1 & s2 & -> & H1 & H2). now constructor.
Qed.

Lemma matches_star_concat (r r' : regex) (s : str) :
  matches r' s -> r' = Star r ->
  exists l, Forall (matches r) l /\ s = List.concat l.
Proof.
  induction 1 as [ | | | | | | r0 s1 s2 H1 _ H2 IH2]; try discriminate.
  - intros _. now exists [].
  - intros E. injection E as ->.
    destruct (IH2 eq_refl) as (l & Hl & ->).
    exists (s1 :: l). split; [now constructor | reflexivity].
Qed.

(** [r*]: a concatenation of any number of words of [r]. *)
Lemma matches_star (r : regex) (s : str) :
  matches (Star r) s <->
  exists l, Forall (matches r) l /\ s = List.concat l.
Proof.
  split; [intros H; now apply (matches_star_concat H)|].
  intros (l & Hl & ->). induction Hl; simpl; now constructor.
Qed.

(** [r+]: a concatenation of one or more words of [r]. *)
Lemma matches_plus (r : regex) (s : str) :
  matches (Plus r) s <->
  exists l, l <> [] /\ Forall (matches r) l /\ s = List.concat l.
Proof.
  unfold Plus. rewrite matches_cat. split.
  - intros (s1 & s2 & -> & H1 & H2).
    apply matches_star in H2. destruct H2 as (l & Hl & ->).
    exists (s1 :: l). repeat split; [discriminate | now constructor].
  - intros (l & Hne & Hl & ->). destruct Hl as [|x l Hx Hl]; [congruence|].
    exists x, (List.concat l). repeat split; trivial.
    apply matches_star. now exists l.
Qed.

End ReFacts.

(** ** [validate_version_string] *)

Section VersionStringFacts.
Import Re ReFacts.
Variable isdecimal : char -> bool.

Lemma concat_classes (l : list str) :
  Forall (matches (Class isdecimal)) l ->
  Forall (fun c => isdecimal c = true) (List.concat l) /\
  length (List.concat l) = length l.
Proof.
  induction 1 as [|x l Hx _ [IH1 IH2]]; simpl; [now split|].
  apply matches_class in Hx. destruct Hx as (c & -> & Hc). simpl.
  split; [now constructor | now rewrite IH2].
Qed.

Lemma concat_singletons (s : str) :
  List.concat (map (fun c => [c]) s) = s.
Proof. induction s as [|c s IH]; simpl; [reflexivity | now rewrite IH]. Qed.

(** [\d+] *)
Lemma matches_digits (s : str) :
  matches (Plus (Class isdecimal)) s <-> digits isdecimal s.
Proof.
  rewrite matches_plus. unfold digits. split.
  - intros (l & Hne & Hl & ->).
    destruct (concat_classes Hl) as [HF Hlen]. split; [|exact HF].
    intros E. rewrite E in Hlen. destruct l; [congruence | discriminate].
  - intros [Hne HF]. exists (map (fun c => [c]) s). repeat split.
    + destruct s; [congruence | discriminate].
    + rewrite Forall_map. revert HF. apply Forall_impl.
      intros c Hc. now constructor.
    + symmetry. apply concat_singletons.
Qed.

(** [\.\d+] *)
Lemma matches_dot_group (g : str) :
  matches (Cat (Class (N.eqb dot)) (Plus (Class isdecimal))) g <->
  dot_group isdecimal g.
Proof.
  rewrite matches_cat. unfold dot_group. split.
  - intros (s1 & s2 & -> & H1 & H2).
    apply matches_class in H1. destruct H1 as (c & -> & Hc).
    apply N.eqb_eq in Hc. subst c.
    exists s2. split; [reflexivity | now apply matches_digits].
  - intros (ds & -> & Hds). exists [dot], ds. repeat split.
    + constructor. apply N.eqb_refl.
    + now apply matches_digits.
Qed.

(** The language of the pattern is the shape the specification words. *)
Lemma matches_version (p : str) :
  matches (version_pattern isdecimal) p <-> dotted_version isdecimal p.
Proof.
  unfold version_pattern, dotted_version. rewrite matches_cat. split.
  - intros (s1 & s2 & -> & H1 & H2).
    apply matches_digits in H1. apply matches_plus in H2.
    destruct H2 as (groups & Hne & Hg & ->).
    exists s1, groups.
    split; [exact H1 | split; [exact Hne | split; [|reflexivity]]].
    revert Hg. apply Forall_impl. intros g. apply matches_dot_group.
  - intros (ds & groups & Hds & Hne & Hg & ->).
    exists ds, (List.concat groups).
    split; [reflexivity | split; [now apply matches_digits|]].
    apply matches_plus. exists groups.
    split; [exact Hne | split; [|reflexivity]].
    revert Hg. apply Forall_impl. intros g. apply matches_dot_group.
Qed.

Lemma re_match_version (value : str) :
  re_match (version_pattern isdecimal) value = true <->
  starts_with_version isdecimal value.
Proof.
  rewrite re_match_spec. unfold starts_with_version.
  split; intros (p & rest & E & H); exists p, rest;
    (split; [exact E | now apply matches_version]).
Qed.

(** A string that starts with a version starts with a digit ... *)
Lemma version_first_digit (value : str) :
  starts_with_version isdecimal value ->
  exists c s, value = c :: s /\ isdecimal c = true.
Proof.
  intros (p & rest & -> & ds & groups & [Hne HF] & _ & _ & ->).
  destruct ds as [|c ds]; [congruence|].
  exists c, ((ds ++ List.concat groups) ++ rest).
  split; [reflexivity | now inversion HF].
Qed.

(** ... and has at least three characters. *)
Lemma version_min_length (value : str) :
  starts_with_version isdecimal value -> 3 <= length value.
Proof.
  intros (p & rest & -> & ds & groups & [Hne _] & Hg & HF & ->).
  destruct ds as [|c ds]; [congruence|].
  destruct HF as [|g groups (ds' & -> & [Hne' _]) _]; [congruence|].
  destruct ds' as [|c' ds']; [congruence|].
  rewrite !length_app. simpl. lia.
Qed.

End VersionStringFacts.

(** ** [list_spacy_models] *)

Module ModelsFacts.
Import PyStrFacts.

(** *** The comprehensions *)

(** Both branches of [if model_name:] select the same releases as the
    filter of the specification: an empty filter is a prefix of every
    identifier. *)
Lemma retained_spec (model_name : option str) (releases : list Release) :
  retained model_name releases =
  map parts_of (filter (selected model_name) releases).
Proof.
  destruct model_name as [[|c f]|]; simpl; try reflexivity.
  - f_equal. induction releases as [|r l IH]; simpl; [reflexivity|].
    now rewrite <- IH.
  - f_equal. induction releases as [|r l IH]; simpl; [reflexivity|].
    now rewrite <- IH.
Qed.

Lemma parts_of_two (r : Release) :
  length (parts_of r) = 2 <-> well_formed (name r).
Proof.
  unfold parts_of, well_formed. rewrite split_length. lia.
Qed.


(** *** The sort, at the keys of the program *)

Lemma sort_releases_perm (l : list (list str)) :
  Permutation (sort_releases l) l.
Proof. apply PySortFacts.sort_perm. Qed.

Lemma sort_releases_sorted (l : list (list str)) :
  StronglySorted (PySort.key_le sort_key ltb) (sort_releases l).
Proof.
  apply PySortFacts.sort_sorted.
  - apply ltb_asym.
  - intros a b c. apply leb_trans.
Qed.

Lemma sort_releases_stable (k : str) (l : list (list str)) :
  named sort_key k (sort_releases l) = named sort_key k l.
Proof.
  apply (PySortFacts.sort_stable sort_key ltb str_eq_dec ltb_irrefl).
Qed.

Lemma sort_releases_ext (l m : list (list str)) :
  (forall k, named sort_key k l = named sort_key k m) ->
  sort_releases l = sort_releases m.
Proof.
  apply (PySortFacts.sort_ext sort_key ltb str_eq_dec).
  - apply ltb_irrefl.
  - apply ltb_asym.
  - intros a b c. apply leb_trans.
  - apply leb_antisym.
Qed.

Lemma sort_releases_two (l : list (list str)) :
  Forall (fun parts => length parts = 2) (sort_releases l) <->
  Forall (fun parts => length parts = 2) l.
Proof.
  split; apply Permutation_Forall;
    [|symmetry]; apply sort_releases_perm.
Qed.

(** *** The registry *)

Lemma answers_dec (w : World) (n : str) : {answers w n} + {~ answers w n}.
Proof.
  unfold answers. destruct (get_distribution w n) as [v|e].
  - left. discriminate.
  - destruct e; try (right; intros H; specialize (H _ eq_refl);
                     discriminate).
    left. intros e H. now injection H as <-.
Qed.

Lemma entry_ok_dec (w : World) (parts : list str) :
  {entry_ok w parts} + {~ entry_ok w parts}.
Proof.
  unfold entry_ok.
  destruct (Nat.eq_dec (length parts) 2) as [H|H];
    [|right; tauto].
  destruct (answers_dec w (sort_key parts)); [left | right]; tauto.
Qed.

Lemma entries_dec (w : World) (l : list (list str)) :
  {Forall (entry_ok w) l} + {~ Forall (entry_ok w) l}.
Proof. apply Forall_dec, entry_ok_dec. Qed.

Lemma entry_ok_two (w : World) (l : list (list str)) :
  Forall (entry_ok w) l -> Forall (fun parts => length parts = 2) l.
Proof. apply Forall_impl. now intros parts [H _]. Qed.

Lemma retained_ok (w : World) (model_name : option str)
    (releases : list Release) :
  Forall (entry_ok w) (retained model_name releases) <->
  Forall (reportable w) (filter (selected model_name) releases).
Proof.
  rewrite retained_spec, Forall_map.
  split; apply Forall_impl; intros r; unfold entry_ok, reportable, model_of;
    rewrite parts_of_two; trivial.
Qed.

Lemma sort_releases_ok (w : World) (l : list (list str)) :
  Forall (entry_ok w) (sort_releases l) <-> Forall (entry_ok w) l.
Proof.
  split; apply Permutation_Forall;
    [|symmetry]; apply sort_releases_perm.
Qed.

(** A lookup the registry answers fills the cell and goes on. *)
Lemma lookup_answers (w : World) (n : str) (t : list event) :
  answers w n ->
  installed_model_version w n t =
  (Returned (installed w n), t ++ [EvGetDistribution n]).
Proof.
  unfold answers, installed_model_version, installed, bind, emit, ret.
  intros H. destruct (get_distribution w n) as [v|e]; [reflexivity|].
  now rewrite (H e eq_refl).
Qed.

(** Any other lookup raises what the registry raised. *)
Lemma lookup_raises (w : World) (n : str) (t : list event) :
  ~ answers w n ->
  exists e,
    get_distribution w n = Raised e /\ e <> DistributionNotFound /\
    installed_model_version w n t = (Raised e, t ++ [EvGetDistribution n]).
Proof.
  unfold answers, installed_model_version, bind, emit, ret, raise.
  intros H. destruct (get_distribution w n) as [v|e].
  - exfalso. apply H. discriminate.
  - exists e. split; [reflexivity|].
    destruct e; try (repeat split; discriminate).
    exfalso. apply H. intros e E. now injection E as <-.
Qed.

(** *** The loop *)

Lemma fill_table_step (w : World) (n version : str)
    (rest : list (list str)) (tbl : table) (t : list event) :
  fill_table w ([n; version] :: rest) tbl t =
  match installed_model_version w n t with
  | (Returned v, t') =>
      fill_table w rest (tbl ++ [[Some n; v; Some version]]) t'
  | (Raised e, t') => (Raised e, t')
  end.
Proof. reflexivity. Qed.

Lemma fill_table_complete (w : World) (releases : list (list str))
    (tbl : table) (t : list event) :
  Forall (entry_ok w) releases ->
  fill_table w releases tbl t =
  (Returned (tbl ++ map (release_row w) releases),
   t ++ map (fun parts => EvGetDistribution (sort_key parts)) releases).
Proof.
  intros H. revert tbl t.
  induction H as [|parts rest [Hp Ha] _ IH]; intros tbl t.
  - simpl. unfold ret. now rewrite !app_nil_r.
  - destruct parts as [|n [|v [|x parts]]]; try discriminate.
    change (answers w n) in Ha.
    rewrite fill_table_step, (lookup_answers t Ha), IH.
    simpl. now rewrite <- !app_assoc.
Qed.

(** The loop stops at the first element that is not a pair or that the
    registry does not answer for, after the queries for the elements
    before it. *)
Lemma fill_table_raises (w : World) (releases : list (list str))
    (tbl : table) (t : list event) :
  ~ Forall (entry_ok w) releases ->
  exists e pre,
    fill_table w releases tbl t =
    (Raised e, t ++ map EvGetDistribution pre).
Proof.
  revert tbl t.
  induction releases as [|parts rest IH]; intros tbl t H.
  - exfalso. apply H. constructor.
  - assert (Hraise : length parts <> 2 ->
                     exists e pre, (@Raised table ValueError, t) =
                       (Raised e, t ++ map EvGetDistribution pre)).
    { intros _. exists ValueError, []. simpl. now rewrite app_nil_r. }
    destruct parts as [|n [|v [|x parts]]];
      try (apply Hraise; simpl; lia).
    rewrite fill_table_step.
    destruct (answers_dec w n) as [Ha|Ha].
    + rewrite (lookup_answers t Ha).
      assert (Hrest : ~ Forall (entry_ok w) rest).
      { intros Hrest. apply H. constructor; [|exact Hrest]. now split. }
      destruct (IH (tbl ++ [[Some n; installed w n; Some v]])
                   (t ++ [EvGetDistribution n]) Hrest)
        as (e & pre & Hpre).
      exists e, (n :: pre). rewrite <- app_assoc in Hpre. exact Hpre.
    + destruct (lookup_raises t Ha) as (e & _ & _ & ->).
      now exists e, [n].
Qed.


(** The loop reads the registry and nothing else of the world. *)
Lemma fill_table_ext (w1 w2 : World) (releases : list (list str))
    (tbl : table) (t : list event) :
  (forall n, get_distribution w1 n = get_distribution w2 n) ->
  fill_table w1 releases tbl t = fill_table w2 releases tbl t.
Proof.
  intros Hreg. revert tbl t.
  induction releases as [|parts rest IH]; intros tbl t; [reflexivity|].
  destruct parts as [|n [|v [|x parts]]]; try reflexivity.
  rewrite !fill_table_step.
  assert (E : installed_model_version w1 n t =
              installed_model_version w2 n t).
  { unfold installed_model_version. now rewrite Hreg. }
  rewrite E. destruct (installed_model_version w2 n t) as [[c|e] t'];
    [apply IH | reflexivity].
Qed.

(** A lookup appends to the trace it is given and does not read it. *)
Lemma lookup_trace (w : World) (n : str) (t : list event) :
  installed_model_version w n t =
  (fst (installed_model_version w n []), t ++ [EvGetDistribution n]).
Proof.
  unfold installed_model_version, bind, emit, ret, raise.
  destruct (get_distribution w n) as [v|e]; [reflexivity|].
  destruct e; reflexivity.
Qed.

(** So does the loop. *)
Lemma fill_table_trace (w : World) (releases : list (list str))
    (tbl : table) (t : list event) :
  fill_table w releases tbl t =
  (fst (fill_table w releases tbl []),
   t ++ snd (fill_table w releases tbl [])).
Proof.
  revert tbl t.
  induction releases as [|parts rest IH]; intros tbl t.
  - simpl. unfold ret. simpl. now rewrite app_nil_r.
  - assert (Hraise : (@Raised table ValueError, t) =
                     (fst (@Raised table ValueError, @nil event),
                      t ++ snd (@Raised table ValueError, @nil event))).
    { simpl. now rewrite app_nil_r. }
    destruct parts as [|n [|v [|x parts]]]; try exact Hraise.
    rewrite !fill_table_step.
    pose proof (lookup_trace w n t) as Et.
    pose proof (lookup_trace w n []) as E0. revert Et E0.
    destruct (fst (installed_model_version w n [])) as [c|e];
      intros -> ->; [|reflexivity].
    rewrite (IH _ (t ++ [EvGetDistribution n])).
    rewrite (IH _ ([] ++ [EvGetDistribution n])).
    simpl. now rewrite <- app_assoc.
Qed.

Lemma printed_app (t t' : list event) :
  printed (t ++ t') =
  match printed t with Some tbl => Some tbl | None => printed t' end.
Proof.
  induction t as [|e t IH]; simpl; [now destruct (printed t')|].
  destruct e; trivial.
Qed.

Lemma printed_lookups (A : Type) (f : A -> str) (l : list A) :
  printed (map (fun a => EvGetDistribution (f a)) l) = None.
Proof. induction l; simpl; trivial. Qed.

(** *** The four ways a run can go *)

Section Run.
Variables (w : World) (model_name : option str).

Local Abbreviation response := (requests_get w releases_url).

Lemma run_not_ok :
  ok response = false ->
  run w model_name = (Returned (-1)%Z, [EvGet releases_url]).
Proof.
  intros H. unfold run, list_spacy_models, bind, emit, ret. simpl.
  now rewrite H.
Qed.

Lemma run_undecodable (e : exn) :
  ok response = true ->
  json_loads w (content response) = Raised e ->
  run w model_name =
  (Raised e, [EvGet releases_url; EvJsonLoads (content response)]).
Proof.
  intros H1 H2. unfold run, list_spacy_models, bind, emit, ret, lift.
  simpl. now rewrite H1, H2.
Qed.

Lemma run_complete (releases : list Release) :
  ok response = true ->
  json_loads w (content response) = Returned releases ->
  Forall (entry_ok w) (retained model_name releases) ->
  run w model_name =
  (Returned 0%Z,
   [EvGet releases_url; EvJsonLoads (content response)]
     ++ map (fun parts => EvGetDistribution (sort_key parts))
            (sort_releases (retained model_name releases))
     ++ [EvPrint (header :: map (release_row w)
                    (sort_releases (retained model_name releases)))]).
Proof.
  intros H1 H2 H3. apply sort_releases_ok in H3.
  unfold run, list_spacy_models, bind, emit, ret, lift. simpl.
  rewrite H1, H2. simpl.
  rewrite (fill_table_complete [header] _ H3). reflexivity.
Qed.

Lemma run_raises (releases : list Release) :
  ok response = true ->
  json_loads w (content response) = Returned releases ->
  ~ Forall (entry_ok w) (retained model_name releases) ->
  exists e pre,
    run w model_name =
    (Raised e,
     [EvGet releases_url; EvJsonLoads (content response)]
       ++ map EvGetDistribution pre).
Proof.
  intros H1 H2 H3. rewrite <- sort_releases_ok in H3.
  unfold run, list_spacy_models, bind, emit, ret, lift. simpl.
  rewrite H1, H2. simpl.
  destruct (fill_table_raises [header]
              [EvGet releases_url; EvJsonLoads (content response)] H3)
    as (e & pre & ->).
  now exists e, pre.
Qed.


(** The outcome of a run on a decoded response is that of the loop. *)
Lemma run_via_loop (releases : list Release) :
  ok response = true ->
  json_loads w (content response) = Returned releases ->
  fst (run w model_name) =
  match fst (fill_table w (sort_releases (retained model_name releases))
               [header] []) with
  | Returned _ => Returned 0%Z
  | Raised e => Raised e
  end.
Proof.
  intros H1 H2.
  unfold run, list_spacy_models, bind, emit, ret, lift. simpl.
  rewrite H1, H2. simpl. rewrite fill_table_trace.
  now destruct (fst (fill_table w
                       (sort_releases (retained model_name releases))
                       [header] [])).
Qed.

(** A report is printed only by a complete run, and is then the
    header followed by one row per retained release, in sorted
    order. *)
Lemma run_printed (tbl : table) :
  printed (snd (run w model_name)) = Some tbl ->
  ok response = true /\
  exists releases,
    json_loads w (content response) = Returned releases /\
    Forall (reportable w) (filter (selected model_name) releases) /\
    fst (run w model_name) = Returned 0%Z /\
    tbl = header :: map (release_row w)
            (sort_releases (retained model_name releases)).
Proof.
  destruct (ok response) eqn:Hok.
  2:{ rewrite (run_not_ok Hok). discriminate. }
  destruct (json_loads w (content response)) as [releases|e] eqn:Hj.
  2:{ rewrite (run_undecodable Hok Hj). discriminate. }
  destruct (entries_dec w (retained model_name releases)) as [H|H].
  - rewrite (run_complete Hok Hj H). simpl.
    rewrite printed_app, (printed_lookups sort_key). simpl.
    intros E. injection E as <-. split; [reflexivity|].
    exists releases. repeat split. now apply retained_ok.
  - destruct (run_raises Hok Hj H) as (e & pre & ->). simpl.
    change (map EvGetDistribution pre)
      with (map (fun a => EvGetDistribution ((fun x : str => x) a)) pre).
    rewrite printed_lookups. discriminate.
Qed.

End Run.
End ModelsFacts.

(** ** Elements of one name *)

Module NamedFacts.
Section Named.
Variables (A : Type) (f : A -> str).

Lemma named_In (k : str) (x : A) (l : list A) :
  In x (named f k l) <-> In x l /\ f x = k.
Proof.
  unfold named. rewrite filter_In.
  destruct (str_eq_dec (f x) k); intuition congruence.
Qed.

Lemma named_filter (p : A -> bool) (k : str) (l : list A) :
  named f k (filter p l) = filter p (named f k l).
Proof.
  unfold named. induction l as [|x l IH]; simpl; [reflexivity|].
  destruct (p x) eqn:Hp; simpl;
    destruct (str_eq_dec (f x) k); simpl; rewrite ?Hp, IH; reflexivity.
Qed.

Lemma named_none (k : str) (l : list A) :
  (forall x, In x l -> f x <> k) -> named f k l = [].
Proof.
  intros H. destruct (named f k l) as [|x l'] eqn:E; [reflexivity|].
  assert (In x (named f k l)) as Hx by (rewrite E; now left).
  apply named_In in Hx. destruct Hx as [Hx Hk]. now destruct (H x Hx).
Qed.

(** Among distinct names, a name selects its one bearer. *)
Lemma named_one (k : str) (x : A) (l : list A) :
  NoDup (map f l) -> In x l -> f x = k -> named f k l = [x].
Proof.
  intros Hnd. revert x.
  induction l as [|y l IH]; intros x Hx Hk; [destruct Hx|].
  simpl in Hnd. apply NoDup_cons_iff in Hnd. destruct Hnd as [Hy Hnd].
  unfold named in *. simpl.
  destruct Hx as [->|Hx].
  - destruct (str_eq_dec (f x) k); [|congruence]. f_equal.
    apply named_none. intros z Hz Hfz. apply Hy.
    rewrite Hk, <- Hfz. now apply in_map.
  - destruct (str_eq_dec (f y) k) as [Hfy|_]; [|now apply IH].
    exfalso. apply Hy. rewrite Hfy, <- Hk. now apply in_map.
Qed.

(** Lists of distinct names that are permutations of each other agree
    on the elements of every name. *)
Lemma named_perm (k : str) (l1 l2 : list A) :
  Permutation l1 l2 -> NoDup (map f l1) ->
  named f k l1 = named f k l2.
Proof.
  intros Hp Hnd.
  assert (Hnd2 : NoDup (map f l2)).
  { apply (Permutation_NoDup (Permutation_map f Hp) Hnd). }
  destruct (named f k l1) as [|x l'] eqn:E.
  - symmetry. apply named_none. intros z Hz Hfz.
    assert (In z (named f k l1)) as Hin.
    { apply named_In. split; [|exact Hfz].
      apply (Permutation_in _ (Permutation_sym Hp) Hz). }
    rewrite E in Hin. destruct Hin.
  - assert (In x (named f k l1)) as Hx by (rewrite E; now left).
    apply named_In in Hx. destruct Hx as [Hx Hk].
    rewrite <- E, (@named_one k x l1 Hnd Hx Hk). symmetry.
    apply (@named_one k x l2 Hnd2 (Permutation_in _ Hp Hx) Hk).
Qed.

End Named.

Lemma named_map (A B : Type) (f : B -> str) (g : A -> B) (k : str)
    (l : list A) :
  named f k (map g l) = map g (named (fun a => f (g a)) k l).
Proof.
  unfold named. induction l as [|x l IH]; simpl; [reflexivity|].
  destruct (str_eq_dec (f (g x)) k); simpl; now rewrite IH.
Qed.

(** In a sorted list, an earlier element may stand before a later one. *)
Lemma StronglySorted_nth (A : Type) (R : A -> A -> Prop) (d : A)
    (l : list A) :
  StronglySorted R l ->
  forall i j, i < j -> j < length l -> R (nth i l d) (nth j l d).
Proof.
  induction 1 as [|x l Hl IH Hx]; intros i j Hij Hj; simpl in Hj; [lia|].
  destruct j as [|j]; [lia|]. destruct i as [|i]; simpl.
  - rewrite Forall_forall in Hx. apply Hx, nth_In. lia.
  - apply IH; lia.
Qed.

End NamedFacts.

(** ** Reports *)

Module ReportFacts.
Import PyStrFacts ModelsFacts NamedFacts.

Section Report.
Variables (w : World) (model_name : option str).
Variable releases : list Release.

Local Abbreviation response := (requests_get w releases_url).
Local Abbreviation kept := (filter (selected model_name) releases).
Local Abbreviation sorted :=
  (sort_releases (retained model_name releases)).

Hypothesis Hok : ok response = true.
Hypothesis Hjson : json_loads w (content response) = Returned releases.

(** Every retained release can be reported: the run completes and
    prints the report. *)
Lemma run_well_formed :
  Forall (reportable w) kept ->
  fst (run w model_name) = Returned 0%Z /\
  printed (snd (run w model_name)) =
  Some (header :: map (release_row w) sorted).
Proof.
  intros H. apply retained_ok in H.
  rewrite (@run_complete w model_name releases Hok Hjson H). simpl.
  split; [reflexivity|].
  now rewrite printed_app, (printed_lookups sort_key).
Qed.

(** Some retained release cannot: the run raises and prints
    nothing. *)
Lemma run_ill_formed :
  ~ Forall (reportable w) kept ->
  (exists e, fst (run w model_name) = Raised e) /\
  printed (snd (run w model_name)) = None.
Proof.
  intros H. rewrite <- retained_ok in H.
  destruct (@run_raises w model_name releases Hok Hjson H)
    as (e & pre & ->). simpl.
  split; [now exists e|].
  change (map EvGetDistribution pre)
    with (map (fun a => EvGetDistribution ((fun x : str => x) a)) pre).
  apply printed_lookups.
Qed.

Lemma sorted_perm_kept : Permutation sorted (map parts_of kept).
Proof. rewrite <- retained_spec. apply sort_releases_perm. Qed.

(** The rows of the report are those of the retained releases. *)
Lemma rows_perm_kept :
  Permutation (map (release_row w) sorted)
              (map (fun r => release_row w (parts_of r)) kept).
Proof.
  rewrite <- (map_map parts_of (release_row w)).
  apply Permutation_map, sorted_perm_kept.
Qed.

(** The row of a well-formed release, spelled out. *)
Lemma release_row_well_formed (r : Release) :
  well_formed (name r) ->
  exists n version,
    name r = n ++ hyphen :: version /\
    ~ In hyphen n /\ ~ In hyphen version /\
    parts_of r = [n; version] /\
    release_row w (parts_of r) = [Some n; installed w n; Some version].
Proof.
  intros H. apply parts_of_two in H.
  destruct (parts_of r) as [|n [|version [|x l]]] eqn:E; try discriminate.
  exists n, version. unfold parts_of in E.
  destruct (proj1 (split_two _ _ _ _) E) as (E1 & Hn & Hv).
  repeat split; trivial.
Qed.

(** The name of a row is the sort key of its release. *)
Lemma row_name_release_row (parts : list str) :
  length parts = 2 -> row_name (release_row w parts) = sort_key parts.
Proof.
  destruct parts as [|n [|version [|x l]]]; try discriminate.
  reflexivity.
Qed.

Lemma named_rows (k : str) (l : list (list str)) :
  Forall (fun parts => length parts = 2) l ->
  named row_name k (map (release_row w) l) =
  map (release_row w) (named sort_key k l).
Proof.
  unfold named. induction 1 as [|parts l Hp _ IH]; simpl; [reflexivity|].
  rewrite (row_name_release_row _ Hp), IH.
  now destruct (str_eq_dec (sort_key parts) k).
Qed.

End Report.

(** What a printed report tells about the run that printed it. *)
Lemma report_inversion (w : World) (model_name : option str)
    (releases : list Release) (tbl : table) :
  json_loads w (content (requests_get w releases_url)) = Returned releases ->
  printed (snd (run w model_name)) = Some tbl ->
  Forall (reportable w) (filter (selected model_name) releases) /\
  fst (run w model_name) = Returned 0%Z /\
  rows tbl = map (release_row w)
               (sort_releases (retained model_name releases)).
Proof.
  intros Hjson H. apply run_printed in H.
  destruct H as (_ & releases' & Hjson' & Hwf & Hrun & ->).
  rewrite Hjson in Hjson'. injection Hjson' as <-.
  repeat split; trivial.
Qed.

End ReportFacts.

(* ================================================================== *)
(** * Part III: the specification, claim by claim                      *)
(* ================================================================== *)

(** ** The validation callbacks *)

(** C9 (as amended).  [validate_out_path] raises [BadParameter] with the
    message [File "<path>" already exists.] if and only if the path names
    an existing regular file when the call is made.  It returns the very
    path it was given when the path names something else, or nothing
    (the look-up fails with one of the errors that mean "no such file"),
    or cannot be looked up for its spelling; any other error of the
    look-up is raised again as [OSError].  In every case the file system
    it leaves is the one it found. *)
Theorem validate_out_path_spec (C P : Type) (ctx : C) (param : P)
    (value : Path) (fs : FileSystem) :
  (fs value = StatKind RegularFile ->
   validate_out_path ctx param value fs =
   (Raised (BadParameter (of_string "File " ++ [dquote] ++ path_str value
                            ++ [dquote] ++ of_string " already exists.")),
    fs)) /\
  (forall kind,
      fs value = StatKind kind -> kind <> RegularFile ->
      validate_out_path ctx param value fs = (Returned value, fs)) /\
  (forall errno,
      fs value = StatError errno ->
      validate_out_path ctx param value fs =
      (if ignore_error errno then Returned value else Raised (OSError errno),
       fs)) /\
  (fs value = StatValueError ->
   validate_out_path ctx param value fs = (Returned value, fs)) /\
  ((exists message,
       fst (validate_out_path ctx param value fs) =
       Raised (BadParameter message)) <->
   fs value = StatKind RegularFile) /\
  snd (validate_out_path ctx param value fs) = fs.
Proof.
  unfold validate_out_path, is_file.
  destruct (fs value) as [[| |]|errno|] eqn:E;
    try destruct (ignore_error errno) eqn:Hi; simpl;
    (repeat split; try congruence; try discriminate;
     try (intros [e He]; discriminate); eauto).
  - intros errno' E'. injection E' as <-. now rewrite Hi.
  - intros errno' E'. injection E' as <-. now rewrite Hi.
Qed.

Lemma validate_out_path_spec_witness :
  validate_out_path tt tt {| path_str := of_string "out.db" |} example_fs =
  (Raised (BadParameter
     (of_string "File " ++ [dquote] ++ of_string "out.db" ++ [dquote]
        ++ of_string " already exists.")), example_fs) /\
  validate_out_path tt tt {| path_str := of_string "reports" |} example_fs =
  (Returned {| path_str := of_string "reports" |}, example_fs) /\
  validate_out_path tt tt {| path_str := of_string "new.db" |} example_fs =
  (Returned {| path_str := of_string "new.db" |}, example_fs).
Proof.
  split; [|split].
  - apply (proj1 (validate_out_path_spec tt tt
                    {| path_str := of_string "out.db" |} example_fs)).
    reflexivity.
  - apply (proj1 (proj2 (validate_out_path_spec tt tt
                    {| path_str := of_string "reports" |} example_fs))
             Directory).
    + reflexivity.
    + discriminate.
  - apply (proj1 (proj2 (proj2 (validate_out_path_spec tt tt
                    {| path_str := of_string "new.db" |} example_fs)))
             ENOENT).
    reflexivity.
Defined.

(** C9, as stated, fails: a path too long for the system names no
    regular file, yet it is not returned; the error of the look-up is
    raised. *)
Lemma long_path_is_not_returned :
  example_fs long_path = StatError ENAMETOOLONG /\
  validate_out_path tt tt long_path example_fs =
  (Raised (OSError ENAMETOOLONG), example_fs) /\
  fst (validate_out_path tt tt long_path example_fs) <> Returned long_path.
Proof.
  split; [reflexivity | split; [reflexivity | discriminate]].
Qed.

(** C8.  [validate_version_string] returns its argument unchanged when
    the argument starts with one or more digits followed by one or more
    groups of a dot and one or more digits (whatever comes after), and
    raises [BadParameter] carrying the argument otherwise.  So ["1.2"],
    ["2.0.1"] and ["1.2rc1"] are returned unchanged while ["v1.2"], ["1"]
    and ["abc"] are rejected.  This holds for every table of decimal
    digits that is the usual one on ASCII. *)
Theorem validate_version_string_spec (isdecimal : char -> bool)
    (Hascii : forall c, (c < 128)%N -> isdecimal c = ascii_digit c)
    (C P : Type) (ctx : C) (param : P) :
  (forall value,
      starts_with_version isdecimal value ->
      validate_version_string isdecimal ctx param value = Returned value) /\
  (forall value,
      ~ starts_with_version isdecimal value ->
      validate_version_string isdecimal ctx param value =
      Raised (BadParameter value)) /\
  Forall (fun value =>
            validate_version_string isdecimal ctx param value =
            Returned value)
         (map of_string ["1.2"; "2.0.1"; "1.2rc1"]%string) /\
  Forall (fun value =>
            validate_version_string isdecimal ctx param value =
            Raised (BadParameter value))
         (map of_string ["v1.2"; "1"; "abc"]%string).
Proof.
  assert (Hyes : forall value,
             starts_with_version isdecimal value ->
             validate_version_string isdecimal ctx param value =
             Returned value).
  { intros value H. unfold validate_version_string.
    now rewrite (proj2 (re_match_version isdecimal value) H). }
  assert (Hno : forall value,
             ~ starts_with_version isdecimal value ->
             validate_version_string isdecimal ctx param value =
             Raised (BadParameter value)).
  { intros value H. unfold validate_version_string.
    destruct (Re.re_match (version_pattern isdecimal) value) eqn:E;
      [|reflexivity].
    apply re_match_version in E. contradiction. }
  assert (Hd : forall c, ascii_digit c = true -> (c < 128)%N ->
                         isdecimal c = true).
  { intros c Hc Hlt. now rewrite Hascii. }
  assert (Hds : forall c, ascii_digit c = true -> (c < 128)%N ->
                          digits isdecimal [c]).
  { intros c Hc Hlt. split; [discriminate|]. constructor; auto. }
  split; [exact Hyes | split; [exact Hno | split]].
  - repeat constructor; apply Hyes.
    + exists (of_string "1.2"), []. split; [reflexivity|].
      exists [49%N], [[dot; 50%N]].
      repeat split; try discriminate; try (apply Hds; reflexivity).
      repeat constructor. exists [50%N]. split; [reflexivity|].
      apply Hds; reflexivity.
    + exists (of_string "2.0.1"), []. split; [reflexivity|].
      exists [50%N], [[dot; 48%N]; [dot; 49%N]].
      repeat split; try discriminate; try (apply Hds; reflexivity).
      repeat constructor.
      * exists [48%N]. split; [reflexivity|]. apply Hds; reflexivity.
      * exists [49%N]. split; [reflexivity|]. apply Hds; reflexivity.
    + exists (of_string "1.2"), (of_string "rc1"). split; [reflexivity|].
      exists [49%N], [[dot; 50%N]].
      repeat split; try discriminate; try (apply Hds; reflexivity).
      repeat constructor. exists [50%N]. split; [reflexivity|].
      apply Hds; reflexivity.
  - repeat constructor; apply Hno; intros H.
    + apply version_first_digit in H. destruct H as (c & s & E & Hc).
      injection E as <- _. rewrite Hascii in Hc by reflexivity.
      discriminate.
    + apply version_min_length in H. simpl in H. lia.
    + apply version_first_digit in H. destruct H as (c & s & E & Hc).
      injection E as <- _. rewrite Hascii in Hc by reflexivity.
      discriminate.
Qed.

Lemma validate_version_string_spec_witness :
  validate_version_string ascii_digit tt tt (of_string "2.0.1") =
  Returned (of_string "2.0.1") /\
  validate_version_string ascii_digit tt tt (of_string "v1.2") =
  Raised (BadParameter (of_string "v1.2")).
Proof.
  pose proof (validate_version_string_spec ascii_digit
                (fun c _ => eq_refl) tt tt) as (_ & _ & Hyes & Hno).
  split.
  - exact (proj1 (Forall_forall _ _) Hyes (of_string "2.0.1")
             (or_intror (or_introl eq_refl))).
  - exact (proj1 (Forall_forall _ _) Hno (of_string "v1.2")
             (or_introl eq_refl)).
Defined.

(** ** The reconciliation of releases *)

(** Closes [Forall (reportable w) l] for a concrete world and list. *)
Ltac all_reportable :=
  repeat (constructor;
          [split; [reflexivity
                  | intros e He; vm_compute in He; congruence]|]);
  constructor.

Section Reconcile.
Import PyStrFacts ModelsFacts NamedFacts ReportFacts.

(** C4 (as amended).  On a response that is not a success the operation
    returns [-1] at once: the request is the only step of the run, so
    nothing is decoded, the registry is not queried and no table is
    printed.  Whenever the operation returns a status, that status is
    [-1] exactly when the response was not a success and [0] exactly when
    it was.  (On a success it may raise instead of returning.) *)
Theorem fetch_failure_status (w : World) (model_name : option str) :
  (ok (requests_get w releases_url) = false ->
   run w model_name = (Returned (-1)%Z, [EvGet releases_url])) /\
  (forall z, fst (run w model_name) = Returned z ->
             (z = (-1)%Z /\ ok (requests_get w releases_url) = false) \/
             (z = 0%Z /\ ok (requests_get w releases_url) = true)).
Proof.
  split; [apply run_not_ok|].
  destruct (ok (requests_get w releases_url)) eqn:Hok.
  2:{ rewrite (@run_not_ok w model_name Hok). simpl.
      intros z E. injection E as <-. now left. }
  destruct (json_loads w (content (requests_get w releases_url)))
    as [releases|e] eqn:Hj.
  2:{ rewrite (@run_undecodable w model_name e Hok Hj). discriminate. }
  destruct (entries_dec w (retained model_name releases)) as [H|H];
    rewrite retained_ok in H.
  - destruct (@run_well_formed w model_name releases Hok Hj H) as [-> _].
    intros z E. injection E as <-. now right.
  - destruct (@run_ill_formed w model_name releases Hok Hj H)
      as [[e ->] _].
    discriminate.
Qed.

Lemma fetch_failure_status_witness :
  run unreachable_world None = (Returned (-1)%Z, [EvGet releases_url]).
Proof.
  apply (proj1 (fetch_failure_status unreachable_world None)).
  reflexivity.
Defined.

(** C4, as stated, fails: a response that is a success and lists a name
    without hyphen makes the operation raise [ValueError]; it does not
    return [0]. *)
Lemma success_without_status :
  ok (requests_get stray_name_world releases_url) = true /\
  json_loads stray_name_world
    (content (requests_get stray_name_world releases_url)) =
  Returned [mk_release "en_core_web_sm-2.3.1"; mk_release "README"] /\
  fst (run stray_name_world None) = Raised ValueError /\
  fst (run stray_name_world None) <> Returned 0%Z.
Proof.
  repeat split; try reflexivity. discriminate.
Qed.







(** C7.  A report is printed only by a run that returns [0], and every
    one of its rows comes from a release of the response: the first cell
    is the model name, the second is what the registry answers for that
    very name (the version of the installed distribution, or nothing when
    the registry reports that there is none; it raised nothing else),
    and the third is the version the response gave. *)
Theorem installed_and_latest_versions (w : World) (model_name : option str)
    (releases : list Release) (tbl : table) :
  json_loads w (content (requests_get w releases_url)) = Returned releases ->
  printed (snd (run w model_name)) = Some tbl ->
  fst (run w model_name) = Returned 0%Z /\
  forall r,
    In r (rows tbl) ->
    exists release n latest,
      In release releases /\
      name release = n ++ hyphen :: latest /\
      ~ In hyphen n /\ ~ In hyphen latest /\
      r = [Some n; installed w n; Some latest] /\
      answers w n.
Proof.
  intros Hj Hp.
  destruct (report_inversion w model_name Hj Hp) as (Hwf & Hrun & Hrows).
  split; [exact Hrun|]. intros r Hr. rewrite Hrows in Hr.
  apply (Permutation_in _ (rows_perm_kept w model_name releases)) in Hr.
  apply in_map_iff in Hr. destruct Hr as (release & <- & Hin).
  rewrite Forall_forall in Hwf. destruct (Hwf _ Hin) as [Hw Ha].
  destruct (release_row_well_formed w release Hw)
    as (n & v & E & Hn & Hv & Hparts & Hrow).
  apply filter_In in Hin. destruct Hin as [Hin _].
  unfold model_of in Ha. rewrite Hparts in Ha.
  exists release, n, v. repeat split; trivial.
Qed.

Lemma installed_and_latest_versions_witness :
  fst (run scenario_world None) = Returned 0%Z /\
  forall r,
    In r [mk_row "de_core_news_sm" None "2.3.0";
          mk_row "en_core_web_sm" (Some "2.2.0"%string) "2.3.1"] ->
    exists release n latest,
      In release [mk_release "en_core_web_sm-2.3.1";
                  mk_release "de_core_news_sm-2.3.0"] /\
      name release = n ++ hyphen :: latest /\
      ~ In hyphen n /\ ~ In hyphen latest /\
      r = [Some n; installed scenario_world n; Some latest] /\
      answers scenario_world n.
Proof.
  apply (installed_and_latest_versions scenario_world None
           (releases := [mk_release "en_core_web_sm-2.3.1";
                         mk_release "de_core_news_sm-2.3.0"])
           (tbl := [header; mk_row "de_core_news_sm" None "2.3.0";
                    mk_row "en_core_web_sm" (Some "2.2.0"%string) "2.3.1"])
           eq_refl eq_refl).
Defined.

(** C5.  The rows of every printed report (the header apart) are in
    ascending order of model name: each row's name is less than or equal
    to the next one's, in the order of Python strings. *)
Theorem report_rows_sorted (w : World) (model_name : option str)
    (tbl : table) :
  printed (snd (run w model_name)) = Some tbl ->
  forall i,
    S i < length (rows tbl) ->
    leb (row_name (nth i (rows tbl) []))
        (row_name (nth (S i) (rows tbl) [])) = true.
Proof.
  intros Hp i Hi. apply run_printed in Hp.
  destruct Hp as (_ & releases & _ & Hwf & _ & ->).
  apply retained_ok, entry_ok_two, sort_releases_two in Hwf.
  pose proof (sort_releases_sorted (retained model_name releases)) as Hs.
  revert Hi Hwf Hs. simpl.
  generalize (sort_releases (retained model_name releases)) as l.
  intros l Hi Hwf Hs. rewrite length_map in Hi.
  change (@nil cell) with (release_row w []).
  rewrite !map_nth. rewrite Forall_forall in Hwf.
  rewrite !row_name_release_row by (apply Hwf, nth_In; lia).
  rewrite leb_ltb. apply negb_true_iff.
  apply (StronglySorted_nth [] Hs); lia.
Qed.

Lemma report_rows_sorted_witness :
  leb (of_string "de_core_news_sm") (of_string "en_core_web_sm") = true.
Proof.
  apply (report_rows_sorted scenario_world None
           (tbl := [header; mk_row "de_core_news_sm" None "2.3.0";
                    mk_row "en_core_web_sm" (Some "2.2.0"%string) "2.3.1"])
           eq_refl (i := 0)).
  simpl. lia.
Defined.

(** C6.  With a filter, the rows of the report are those of exactly the
    releases whose full identifier starts with the filter, one row for
    each; without a filter, they are those of all the releases. *)
Theorem filter_keeps_prefixed_releases (w : World) (model_name : option str)
    (releases : list Release) (tbl : table) :
  json_loads w (content (requests_get w releases_url)) = Returned releases ->
  printed (snd (run w model_name)) = Some tbl ->
  (forall f,
      model_name = Some f ->
      Permutation (rows tbl)
        (map (fun r => release_row w (parts_of r))
             (filter (fun r => startswith (name r) f) releases))) /\
  (model_name = None ->
   Permutation (rows tbl)
     (map (fun r => release_row w (parts_of r)) releases)) /\
  (forall f r,
      startswith (name r) f = true <-> exists rest, name r = f ++ rest).
Proof.
  intros Hj Hp.
  destruct (report_inversion w model_name Hj Hp) as (_ & _ & ->).
  pose proof (rows_perm_kept w model_name releases) as H.
  split; [|split].
  - intros f ->. exact H.
  - intros ->.
    assert (E : filter (selected None) releases = releases).
    { clear. induction releases as [|r l IH]; simpl; congruence. }
    now rewrite E in H.
  - intros f r. apply startswith_spec.
Qed.

Lemma filter_keeps_prefixed_releases_witness :
  Permutation
    [mk_row "en_core_web_sm" (Some "2.2.0"%string) "2.3.1"]
    (map (fun r => release_row scenario_world (parts_of r))
         (filter (fun r => startswith (name r) (of_string "en_core_web"))
                 [mk_release "en_core_web_sm-2.3.1";
                  mk_release "de_core_news_sm-2.3.0"])).
Proof.
  apply (proj1 (filter_keeps_prefixed_releases scenario_world
                  (Some (of_string "en_core_web"))
                  (releases := [mk_release "en_core_web_sm-2.3.1";
                                mk_release "de_core_news_sm-2.3.0"])
                  (tbl := [header;
                           mk_row "en_core_web_sm" (Some "2.2.0"%string)
                                  "2.3.1"])
                  eq_refl eq_refl) (of_string "en_core_web") eq_refl).
Defined.

(** C10.  The sort is stable: the rows of one model name stand in the
    report in the order in which their releases stood in the response.
    So when a name occurs more than once, the order of its rows is that
    of the remote source. *)
Theorem same_name_rows_in_response_order (w : World)
    (model_name : option str) (releases : list Release) (tbl : table) :
  json_loads w (content (requests_get w releases_url)) = Returned releases ->
  printed (snd (run w model_name)) = Some tbl ->
  forall k,
    named row_name k (rows tbl) =
    map (fun r => release_row w (parts_of r))
        (named (fun r => sort_key (parts_of r)) k
               (filter (selected model_name) releases)).
Proof.
  intros Hj Hp k.
  destruct (report_inversion w model_name Hj Hp) as (Hwf & _ & ->).
  apply retained_ok, entry_ok_two in Hwf.
  rewrite named_rows by now apply sort_releases_two.
  rewrite sort_releases_stable, retained_spec, named_map.
  apply map_map.
Qed.

Lemma same_name_rows_in_response_order_witness :
  named row_name (of_string "en_core_web_sm")
    [mk_row "de_core_news_sm" None "2.3.0";
     mk_row "en_core_web_sm" (Some "2.2.0"%string) "2.3.1";
     mk_row "en_core_web_sm" (Some "2.2.0"%string) "2.3.0"] =
  [mk_row "en_core_web_sm" (Some "2.2.0"%string) "2.3.1";
   mk_row "en_core_web_sm" (Some "2.2.0"%string) "2.3.0"] /\
  named row_name (of_string "en_core_web_sm")
    [mk_row "de_core_news_sm" None "2.3.0";
     mk_row "en_core_web_sm" (Some "2.2.0"%string) "2.3.0";
     mk_row "en_core_web_sm" (Some "2.2.0"%string) "2.3.1"] =
  [mk_row "en_core_web_sm" (Some "2.2.0"%string) "2.3.0";
   mk_row "en_core_web_sm" (Some "2.2.0"%string) "2.3.1"].
Proof.
  split.
  - apply (same_name_rows_in_response_order newest_first_world None
             (releases := [mk_release "en_core_web_sm-2.3.1";
                           mk_release "de_core_news_sm-2.3.0";
                           mk_release "en_core_web_sm-2.3.0"])
             (tbl := [header;
                      mk_row "de_core_news_sm" None "2.3.0";
                      mk_row "en_core_web_sm" (Some "2.2.0"%string) "2.3.1";
                      mk_row "en_core_web_sm" (Some "2.2.0"%string) "2.3.0"])
             eq_refl eq_refl (of_string "en_core_web_sm")).
  - apply (same_name_rows_in_response_order oldest_first_world None
             (releases := [mk_release "en_core_web_sm-2.3.0";
                           mk_release "de_core_news_sm-2.3.0";
                           mk_release "en_core_web_sm-2.3.1"])
             (tbl := [header;
                      mk_row "de_core_news_sm" None "2.3.0";
                      mk_row "en_core_web_sm" (Some "2.2.0"%string) "2.3.0";
                      mk_row "en_core_web_sm" (Some "2.2.0"%string) "2.3.1"])
             eq_refl eq_refl (of_string "en_core_web_sm")).
Defined.

(** C3 (as amended).  Two successful responses, read against the same
    registry, give the same outcome and the same report whenever the
    releases of each model name are the same in both and stand in the
    same relative order; in particular whenever the two responses are
    permutations of each other and no model name occurs twice.  The
    order of releases of different names does not matter. *)
Theorem same_report_when_names_keep_order (w1 w2 : World)
    (model_name : option str) (releases1 releases2 : list Release) :
  ok (requests_get w1 releases_url) = true ->
  ok (requests_get w2 releases_url) = true ->
  json_loads w1 (content (requests_get w1 releases_url))
    = Returned releases1 ->
  json_loads w2 (content (requests_get w2 releases_url))
    = Returned releases2 ->
  (forall n, get_distribution w1 n = get_distribution w2 n) ->
  ((forall k,
       named (fun r => sort_key (parts_of r)) k releases1 =
       named (fun r => sort_key (parts_of r)) k releases2) ->
   fst (run w1 model_name) = fst (run w2 model_name) /\
   printed (snd (run w1 model_name)) = printed (snd (run w2 model_name))) /\
  (Permutation releases1 releases2 ->
   NoDup (map (fun r => sort_key (parts_of r)) releases1) ->
   fst (run w1 model_name) = fst (run w2 model_name) /\
   printed (snd (run w1 model_name)) = printed (snd (run w2 model_name))).
Proof.
  intros Hok1 Hok2 Hj1 Hj2 Hreg.
  assert (Hgen : (forall k,
                     named (fun r => sort_key (parts_of r)) k releases1 =
                     named (fun r => sort_key (parts_of r)) k releases2) ->
                 fst (run w1 model_name) = fst (run w2 model_name) /\
                 printed (snd (run w1 model_name)) =
                 printed (snd (run w2 model_name))).
  { intros Hk.
    assert (Hs : sort_releases (retained model_name releases1) =
                 sort_releases (retained model_name releases2)).
    { apply sort_releases_ext. intros k.
      rewrite !retained_spec, !named_map, !named_filter. now rewrite Hk. }
    assert (Hrow : forall l, map (release_row w1) l = map (release_row w2) l).
    { intros l. apply map_ext. intros [|n [|v [|x parts]]]; simpl; trivial.
      unfold installed. now rewrite Hreg. }
    assert (Hans : forall parts, entry_ok w1 parts -> entry_ok w2 parts).
    { intros parts [Hp Ha]. split; [exact Hp|].
      intros e He. apply Ha. now rewrite Hreg. }
    split.
    - rewrite (@run_via_loop w1 model_name releases1 Hok1 Hj1).
      rewrite (@run_via_loop w2 model_name releases2 Hok2 Hj2).
      rewrite Hs.
      now rewrite (@fill_table_ext w1 w2 _ [header] [] Hreg).
    - destruct (entries_dec w1 (retained model_name releases1)) as [H1|H1].
      + assert (H2 : Forall (entry_ok w2) (retained model_name releases2)).
        { apply sort_releases_ok. rewrite <- Hs.
          apply sort_releases_ok in H1. revert H1.
          apply Forall_impl, Hans. }
        apply retained_ok in H1, H2.
        destruct (@run_well_formed w1 model_name releases1 Hok1 Hj1 H1)
          as [_ ->].
        destruct (@run_well_formed w2 model_name releases2 Hok2 Hj2 H2)
          as [_ ->].
        now rewrite Hs, Hrow.
      + assert (H2 : ~ Forall (entry_ok w2)
                              (retained model_name releases2)).
        { intros H2. apply H1, sort_releases_ok. rewrite Hs.
          apply sort_releases_ok in H2. revert H2.
          apply Forall_impl. intros parts [Hp Ha]. split; [exact Hp|].
          intros e He. apply Ha. now rewrite <- Hreg. }
        rewrite retained_ok in H1, H2.
        destruct (@run_ill_formed w1 model_name releases1 Hok1 Hj1 H1)
          as [_ ->].
        destruct (@run_ill_formed w2 model_name releases2 Hok2 Hj2 H2)
          as [_ ->].
        reflexivity. }
  split; [exact Hgen|].
  intros Hperm Hnd. apply Hgen. intros k. now apply named_perm.
Qed.

Lemma same_report_when_names_keep_order_witness :
  fst (run scenario_world None) =
  fst (run (mk_world true ["de_core_news_sm-2.3.0";
                           "en_core_web_sm-2.3.1"]%string
                     [("en_core_web_sm", "2.2.0")]%string) None) /\
  printed (snd (run scenario_world None)) =
  printed (snd (run (mk_world true ["de_core_news_sm-2.3.0";
                                    "en_core_web_sm-2.3.1"]%string
                              [("en_core_web_sm", "2.2.0")]%string) None)).
Proof.
  apply (proj2 (same_report_when_names_keep_order
                  scenario_world
                  (mk_world true ["de_core_news_sm-2.3.0";
                                  "en_core_web_sm-2.3.1"]%string
                            [("en_core_web_sm", "2.2.0")]%string)
                  None
                  (releases1 := [mk_release "en_core_web_sm-2.3.1";
                                 mk_release "de_core_news_sm-2.3.0"])
                  (releases2 := [mk_release "de_core_news_sm-2.3.0";
                                 mk_release "en_core_web_sm-2.3.1"])
                  eq_refl eq_refl eq_refl eq_refl (fun n => eq_refl))).
  - apply perm_swap.
  - repeat constructor; simpl; intuition discriminate.
Defined.

(** C3, as stated, fails: two responses that list the same releases, two
    of them of one model, in different orders, give different reports. *)
Lemma report_depends_on_response_order :
  Permutation
    [mk_release "en_core_web_sm-2.3.1"; mk_release "de_core_news_sm-2.3.0";
     mk_release "en_core_web_sm-2.3.0"]
    [mk_release "en_core_web_sm-2.3.0"; mk_release "de_core_news_sm-2.3.0";
     mk_release "en_core_web_sm-2.3.1"] /\
  json_loads newest_first_world
    (content (requests_get newest_first_world releases_url)) =
  Returned [mk_release "en_core_web_sm-2.3.1";
            mk_release "de_core_news_sm-2.3.0";
            mk_release "en_core_web_sm-2.3.0"] /\
  json_loads oldest_first_world
    (content (requests_get oldest_first_world releases_url)) =
  Returned [mk_release "en_core_web_sm-2.3.0";
            mk_release "de_core_news_sm-2.3.0";
            mk_release "en_core_web_sm-2.3.1"] /\
  (forall n, get_distribution newest_first_world n =
             get_distribution oldest_first_world n) /\
  printed (snd (run newest_first_world None)) =
  Some [header;
        mk_row "de_core_news_sm" None "2.3.0";
        mk_row "en_core_web_sm" (Some "2.2.0"%string) "2.3.1";
        mk_row "en_core_web_sm" (Some "2.2.0"%string) "2.3.0"] /\
  printed (snd (run oldest_first_world None)) =
  Some [header;
        mk_row "de_core_news_sm" None "2.3.0";
        mk_row "en_core_web_sm" (Some "2.2.0"%string) "2.3.0";
        mk_row "en_core_web_sm" (Some "2.2.0"%string) "2.3.1"] /\
  printed (snd (run newest_first_world None)) <>
  printed (snd (run oldest_first_world None)).
Proof.
  split.
  { apply (Permutation_rev [mk_release "en_core_web_sm-2.3.1";
                            mk_release "de_core_news_sm-2.3.0";
                            mk_release "en_core_web_sm-2.3.0"]). }
  repeat split. discriminate.
Qed.

End Reconcile.

(* ================================================================== *)
(** * Part IV: further properties of the code                          *)
(* ================================================================== *)

(** ** Auxiliary facts *)

Module MoreFacts.
Import PyStrFacts.

(** Joining undoes splitting. *)
Lemma join_split (sep : char) (s : str) : join sep (split sep s) = s.
Proof.
  induction s as [|c s IH]; [reflexivity|]. simpl split.
  pose proof (split_nonempty sep s) as Hne.
  destruct (N.eqb_spec c sep) as [->|Hc].
  - destruct (split sep s) as [|w ws]; [contradiction|].
    change (join sep ([] :: w :: ws)) with (sep :: join sep (w :: ws)).
    now rewrite IH.
  - destruct (split sep s) as [|w ws]; [contradiction|].
    destruct ws as [|w' ws]; simpl in *; now rewrite <- IH.
Qed.

Lemma Permutation_filter (A : Type) (p : A -> bool) (l m : list A) :
  Permutation l m -> Permutation (filter p l) (filter p m).
Proof.
  induction 1 as [|x l m _ IH|x y l|l m n _ IH1 _ IH2]; simpl.
  - constructor.
  - destruct (p x); [now constructor | exact IH].
  - destruct (p x), (p y); try reflexivity. apply perm_swap.
  - now transitivity (filter p m).
Qed.

Lemma Forall_filter (A : Type) (P : A -> Prop) (p : A -> bool)
    (l : list A) :
  Forall P l -> Forall P (filter p l).
Proof.
  rewrite !Forall_forall. intros H x Hx.
  apply filter_In in Hx. now apply H.
Qed.

Section SortFilter.
Import PySort.
Variables (A K : Type) (key : A -> K) (lt : K -> K -> bool).
Hypothesis lt_asym : forall a b, lt a b = true -> lt b a = false.
Hypothesis le_trans :
  forall a b c, lt b a = false -> lt c b = false -> lt c a = false.

Local Abbreviation insert := (insert key lt).
Local Abbreviation sort := (sort key lt).
Local Abbreviation key_le := (key_le key lt).

(** An element that may stand before all the others is put in front. *)
Lemma insert_front (x : A) (l : list A) :
  Forall (key_le x) l -> insert x l = x :: l.
Proof.
  intros H. destruct H as [|y l Hy _]; [reflexivity|].
  simpl. unfold PySort.key_le in Hy. now rewrite Hy.
Qed.

Lemma insert_filter (p : A -> bool) (x : A) (l : list A) :
  StronglySorted key_le l ->
  filter p (insert x l) =
  if p x then insert x (filter p l) else filter p l.
Proof.
  induction 1 as [|y l Hl IH Hy]; simpl.
  - now destruct (p x).
  - destruct (lt (key y) (key x)) eqn:Hyx; simpl.
    + rewrite IH. destruct (p y), (p x); simpl; rewrite ?Hyx; reflexivity.
    + destruct (p x) eqn:Hpx; [|reflexivity].
      destruct (p y) eqn:Hpy; simpl; [now rewrite Hyx|].
      symmetry. apply insert_front. apply Forall_filter.
      revert Hy. apply Forall_impl. intros z Hz.
      unfold PySort.key_le in *. eapply le_trans; eassumption.
Qed.

Lemma sort_sorted' (l : list A) : StronglySorted key_le (sort l).
Proof.
  apply PySortFacts.sort_sorted; assumption.
Qed.

(** Selecting before sorting or after gives the same list. *)
Lemma sort_filter (p : A -> bool) (l : list A) :
  sort (filter p l) = filter p (sort l).
Proof.
  induction l as [|x l IH]; [reflexivity|]. simpl.
  rewrite (insert_filter p x (sort_sorted' l)).
  destruct (p x); simpl; now rewrite IH.
Qed.

End SortFilter.

Lemma sort_releases_filter (p : list str -> bool) (l : list (list str)) :
  sort_releases (filter p l) = filter p (sort_releases l).
Proof.
  apply sort_filter.
  - apply ltb_asym.
  - intros a b c. apply leb_trans.
Qed.

(** The loop stops at the first element that is not a pair, after the
    queries for the elements before it. *)
Lemma fill_table_stops (w : World) (pre post : list (list str))
    (bad : list str) (tbl : table) (t : list event) :
  Forall (entry_ok w) pre ->
  length bad <> 2 ->
  fill_table w (pre ++ bad :: post) tbl t =
  (Raised ValueError,
   t ++ map (fun parts => EvGetDistribution (sort_key parts)) pre).
Proof.
  intros Hpre Hbad. revert tbl t.
  induction Hpre as [|parts pre [Hp Ha] _ IH]; intros tbl t.
  - simpl. rewrite app_nil_r.
    destruct bad as [|n [|v [|x bad]]]; simpl in *;
      try reflexivity; congruence.
  - destruct parts as [|n [|v [|x parts]]]; try discriminate.
    change (answers w n) in Ha. rewrite <- app_comm_cons.
    rewrite ModelsFacts.fill_table_step,
      (ModelsFacts.lookup_answers t Ha), IH.
    simpl. now rewrite <- app_assoc.
Qed.

(** It stops as well at the first name the registry does not answer
    for, after the query for that name, with what the registry raised. *)
Lemma fill_table_registry_error (w : World) (pre post : list (list str))
    (n version : str) (e : exn) (tbl : table) (t : list event) :
  Forall (entry_ok w) pre ->
  get_distribution w n = Raised e ->
  e <> DistributionNotFound ->
  fill_table w (pre ++ [n; version] :: post) tbl t =
  (Raised e,
   t ++ map (fun parts => EvGetDistribution (sort_key parts)) pre
     ++ [EvGetDistribution n]).
Proof.
  intros Hpre He Hne. revert tbl t.
  induction Hpre as [|parts pre [Hp Ha] _ IH]; intros tbl t.
  - simpl app. rewrite ModelsFacts.fill_table_step.
    unfold installed_model_version, bind, emit, ret, raise.
    rewrite He. destruct e; try reflexivity. congruence.
  - destruct parts as [|m [|v [|x parts]]]; try discriminate.
    change (answers w m) in Ha. rewrite <- app_comm_cons.
    rewrite ModelsFacts.fill_table_step,
      (ModelsFacts.lookup_answers t Ha), IH.
    simpl. now rewrite <- !app_assoc.
Qed.

End MoreFacts.

(** ** [list_spacy_models], further *)

Section ReconcileMore.
Import PyStrFacts ModelsFacts NamedFacts ReportFacts MoreFacts.

(** X1.  When the body of a successful response cannot be decoded, the
    exception of [json.loads] leaves the operation unchanged; the
    registry has not been queried and nothing has been printed. *)
Theorem decoder_error_propagates (w : World) (model_name : option str)
    (e : exn) :
  ok (requests_get w releases_url) = true ->
  json_loads w (content (requests_get w releases_url)) = Raised e ->
  run w model_name =
  (Raised e,
   [EvGet releases_url;
    EvJsonLoads (content (requests_get w releases_url))]).
Proof.
  intros Hok Hj. apply (@run_undecodable w model_name e Hok Hj).
Qed.

Lemma decoder_error_propagates_witness :
  run garbled_world (Some (of_string "en")) =
  (Raised JSONDecodeError, [EvGet releases_url; EvJsonLoads [Byte.x3c]]).
Proof.
  apply (decoder_error_propagates garbled_world (Some (of_string "en"))
           (e := JSONDecodeError) eq_refl eq_refl).
Defined.

(** X2.  A run that prints a report has made one request, decoded one
    body, queried the registry exactly once for each row of the report,
    in the order of the rows and under the name of the row, and printed
    last, once.  The first line of the table is the fixed header. *)
Theorem one_query_per_row (w : World) (model_name : option str)
    (tbl : table) :
  printed (snd (run w model_name)) = Some tbl ->
  run w model_name =
  (Returned 0%Z,
   [EvGet releases_url;
    EvJsonLoads (content (requests_get w releases_url))]
     ++ map (fun r => EvGetDistribution (row_name r)) (rows tbl)
     ++ [EvPrint tbl]) /\
  hd [] tbl = header.
Proof.
  intros Hp. apply run_printed in Hp.
  destruct Hp as (Hok & releases & Hj & Hwf & _ & ->).
  apply retained_ok in Hwf.
  split; [|reflexivity].
  rewrite (@run_complete w model_name releases Hok Hj Hwf).
  apply entry_ok_two, sort_releases_two in Hwf. simpl rows.
  rewrite map_map.
  do 3 f_equal. apply map_ext_in. intros parts Hin.
  rewrite Forall_forall in Hwf.
  now rewrite (row_name_release_row w parts (Hwf _ Hin)).
Qed.

Lemma one_query_per_row_witness :
  run scenario_world None =
  (Returned 0%Z,
   [EvGet releases_url; EvJsonLoads [];
    EvGetDistribution (of_string "de_core_news_sm");
    EvGetDistribution (of_string "en_core_web_sm");
    EvPrint [header; mk_row "de_core_news_sm" None "2.3.0";
             mk_row "en_core_web_sm" (Some "2.2.0"%string) "2.3.1"]]).
Proof.
  apply (proj1 (one_query_per_row scenario_world None
                  (tbl := [header; mk_row "de_core_news_sm" None "2.3.0";
                           mk_row "en_core_web_sm" (Some "2.2.0"%string)
                                  "2.3.1"])
                  eq_refl)).
Defined.

(** X3.  When the response lists no release, or none that passes the
    filter, the operation still succeeds: it returns [0] and prints a
    table made of the header alone, without querying the registry. *)
Theorem header_only_report (w : World) (model_name : option str)
    (releases : list Release) :
  ok (requests_get w releases_url) = true ->
  json_loads w (content (requests_get w releases_url)) = Returned releases ->
  (forall r, In r releases -> selected model_name r = false) ->
  run w model_name =
  (Returned 0%Z,
   [EvGet releases_url;
    EvJsonLoads (content (requests_get w releases_url));
    EvPrint [header]]).
Proof.
  intros Hok Hj Hnone.
  assert (E : retained model_name releases = []).
  { rewrite retained_spec.
    replace (filter (selected model_name) releases) with (@nil Release);
      [reflexivity|].
    symmetry. clear Hj. induction releases as [|r l IH]; [reflexivity|].
    simpl. rewrite (Hnone r (or_introl eq_refl)).
    apply IH. intros r' Hr'. apply Hnone. now right. }
  rewrite (@run_complete w model_name releases Hok Hj).
  - now rewrite E.
  - rewrite E. constructor.
Qed.

Lemma header_only_report_witness :
  run scenario_world (Some (of_string "fr")) =
  (Returned 0%Z, [EvGet releases_url; EvJsonLoads []; EvPrint [header]]).
Proof.
  apply (header_only_report scenario_world (Some (of_string "fr"))
           (releases := [mk_release "en_core_web_sm-2.3.1";
                         mk_release "de_core_news_sm-2.3.0"])
           eq_refl eq_refl).
  intros r [<-|[<-|[]]]; reflexivity.
Defined.

(** X4.  The identifiers are not checked before the loop: when the
    sorted list has an element that is not a pair, and the registry
    answers for the releases sorted before the first such element, it
    has been queried for every one of them when [ValueError] is raised,
    and nothing is printed. *)
Theorem queries_before_value_error (w : World) (model_name : option str)
    (releases : list Release) (pre post : list (list str))
    (bad : list str) :
  ok (requests_get w releases_url) = true ->
  json_loads w (content (requests_get w releases_url)) = Returned releases ->
  sort_releases (retained model_name releases) = pre ++ bad :: post ->
  Forall (entry_ok w) pre ->
  length bad <> 2 ->
  run w model_name =
  (Raised ValueError,
   [EvGet releases_url;
    EvJsonLoads (content (requests_get w releases_url))]
     ++ map (fun parts => EvGetDistribution (sort_key parts)) pre).
Proof.
  intros Hok Hj Hs Hpre Hbad.
  unfold run, list_spacy_models, bind, emit, ret, lift. simpl.
  rewrite Hok, Hj. simpl. rewrite Hs.
  now rewrite (@fill_table_stops w pre post bad [header] _ Hpre Hbad).
Qed.

Lemma queries_before_value_error_witness :
  run late_failure_world None =
  (Raised ValueError,
   [EvGet releases_url; EvJsonLoads [];
    EvGetDistribution (of_string "de_core_news_sm");
    EvGetDistribution (of_string "en_core_web_sm")]).
Proof.
  apply (@queries_before_value_error late_failure_world None
           [mk_release "en_core_web_sm-2.3.1"; mk_release "xx_broken";
            mk_release "de_core_news_sm-2.3.0"]
           [[of_string "de_core_news_sm"; of_string "2.3.0"];
            [of_string "en_core_web_sm"; of_string "2.3.1"]]
           [] [of_string "xx_broken"]
           eq_refl eq_refl eq_refl).
  - all_reportable.
  - simpl. lia.
Defined.

(** X12.  The [try] of the loop catches [DistributionNotFound] only:
    any other exception of the registry ends the operation with that
    exception, after the queries for the releases sorted before and for
    the offending name itself; nothing is printed. *)
Theorem registry_error_propagates (w : World) (model_name : option str)
    (releases : list Release) (pre post : list (list str))
    (n version : str) (e : exn) :
  ok (requests_get w releases_url) = true ->
  json_loads w (content (requests_get w releases_url)) = Returned releases ->
  sort_releases (retained model_name releases)
    = pre ++ [n; version] :: post ->
  Forall (entry_ok w) pre ->
  get_distribution w n = Raised e ->
  e <> DistributionNotFound ->
  run w model_name =
  (Raised e,
   [EvGet releases_url;
    EvJsonLoads (content (requests_get w releases_url))]
     ++ map (fun parts => EvGetDistribution (sort_key parts)) pre
     ++ [EvGetDistribution n]).
Proof.
  intros Hok Hj Hs Hpre He Hne.
  unfold run, list_spacy_models, bind, emit, ret, lift. simpl.
  rewrite Hok, Hj. simpl. rewrite Hs.
  now rewrite (@fill_table_registry_error w pre post n version e
                 [header] _ Hpre He Hne).
Qed.

Lemma registry_error_propagates_witness :
  run refused_name_world None =
  (Raised InvalidRequirement,
   [EvGet releases_url; EvJsonLoads [];
    EvGetDistribution (of_string "en_core_web_sm");
    EvGetDistribution (of_string "~tmp")]).
Proof.
  apply (@registry_error_propagates refused_name_world None
           [mk_release "~tmp-0.1"; mk_release "en_core_web_sm-2.3.1"]
           [[of_string "en_core_web_sm"; of_string "2.3.1"]] []
           (of_string "~tmp") (of_string "0.1") InvalidRequirement
           eq_refl eq_refl eq_refl).
  - all_reportable.
  - reflexivity.
  - discriminate.
Defined.

(** X5.  The order of the response never changes whether a report is
    printed nor what it holds, only how it is ordered: of two successful
    responses that are permutations of each other, read against the same
    registry, either both make the operation return [0] and print, and
    the rows of the two reports are the same rows, each as many times,
    or both make it raise and print nothing. *)
Theorem same_rows_for_permuted_responses (w1 w2 : World)
    (model_name : option str) (releases1 releases2 : list Release) :
  ok (requests_get w1 releases_url) = true ->
  ok (requests_get w2 releases_url) = true ->
  json_loads w1 (content (requests_get w1 releases_url))
    = Returned releases1 ->
  json_loads w2 (content (requests_get w2 releases_url))
    = Returned releases2 ->
  (forall n, get_distribution w1 n = get_distribution w2 n) ->
  Permutation releases1 releases2 ->
  (fst (run w1 model_name) = Returned 0%Z /\
   fst (run w2 model_name) = Returned 0%Z /\
   exists tbl1 tbl2,
     printed (snd (run w1 model_name)) = Some tbl1 /\
     printed (snd (run w2 model_name)) = Some tbl2 /\
     Permutation (rows tbl1) (rows tbl2)) \/
  ((exists e, fst (run w1 model_name) = Raised e) /\
   (exists e, fst (run w2 model_name) = Raised e) /\
   printed (snd (run w1 model_name)) = None /\
   printed (snd (run w2 model_name)) = None).
Proof.
  intros Hok1 Hok2 Hj1 Hj2 Hreg Hperm.
  pose proof (Permutation_filter (selected model_name) Hperm) as Hkept.
  assert (H12 : forall r, reportable w1 r -> reportable w2 r).
  { intros r [Hw Ha]. split; [exact Hw|].
    intros e He. apply Ha. now rewrite Hreg. }
  assert (H21 : forall r, reportable w2 r -> reportable w1 r).
  { intros r [Hw Ha]. split; [exact Hw|].
    intros e He. apply Ha. now rewrite <- Hreg. }
  destruct (entries_dec w1 (retained model_name releases1)) as [H1|H1];
    rewrite retained_ok in H1.
  - assert (H2 : Forall (reportable w2)
                        (filter (selected model_name) releases2)).
    { apply (Permutation_Forall Hkept). revert H1.
      apply Forall_impl, H12. }
    destruct (@run_well_formed w1 model_name releases1 Hok1 Hj1 H1)
      as [-> ->].
    destruct (@run_well_formed w2 model_name releases2 Hok2 Hj2 H2)
      as [-> ->].
    left. split; [reflexivity | split; [reflexivity|]]. do 2 eexists.
    split; [reflexivity | split; [reflexivity|]]. simpl.
    rewrite (rows_perm_kept w1 model_name releases1).
    rewrite (rows_perm_kept w2 model_name releases2).
    rewrite (Permutation_map (fun r => release_row w1 (parts_of r)) Hkept).
    assert (E : map (fun r => release_row w1 (parts_of r))
                    (filter (selected model_name) releases2) =
                map (fun r => release_row w2 (parts_of r))
                    (filter (selected model_name) releases2)).
    { apply map_ext. intros r.
      destruct (parts_of r) as [|n [|v [|x parts]]]; simpl; trivial.
      unfold installed. now rewrite Hreg. }
    now rewrite E.
  - assert (H2 : ~ Forall (reportable w2)
                          (filter (selected model_name) releases2)).
    { intros H2. apply H1.
      apply (Permutation_Forall (Permutation_sym Hkept)). revert H2.
      apply Forall_impl, H21. }
    destruct (@run_ill_formed w1 model_name releases1 Hok1 Hj1 H1)
      as [He1 ->].
    destruct (@run_ill_formed w2 model_name releases2 Hok2 Hj2 H2)
      as [He2 ->].
    right. now repeat split.
Qed.

Lemma same_rows_for_permuted_responses_witness :
  (fst (run newest_first_world None) = Returned 0%Z /\
   fst (run oldest_first_world None) = Returned 0%Z /\
   exists tbl1 tbl2,
     printed (snd (run newest_first_world None)) = Some tbl1 /\
     printed (snd (run oldest_first_world None)) = Some tbl2 /\
     Permutation (rows tbl1) (rows tbl2)) \/
  ((exists e, fst (run newest_first_world None) = Raised e) /\
   (exists e, fst (run oldest_first_world None) = Raised e) /\
   printed (snd (run newest_first_world None)) = None /\
   printed (snd (run oldest_first_world None)) = None).
Proof.
  apply (@same_rows_for_permuted_responses
           newest_first_world oldest_first_world None
           [mk_release "en_core_web_sm-2.3.1";
            mk_release "de_core_news_sm-2.3.0";
            mk_release "en_core_web_sm-2.3.0"]
           [mk_release "en_core_web_sm-2.3.0";
            mk_release "de_core_news_sm-2.3.0";
            mk_release "en_core_web_sm-2.3.1"]
           eq_refl eq_refl eq_refl eq_refl (fun n => eq_refl)).
  apply (Permutation_rev [mk_release "en_core_web_sm-2.3.1";
                          mk_release "de_core_news_sm-2.3.0";
                          mk_release "en_core_web_sm-2.3.0"]).
Defined.

(** X6.  Filtering and reporting commute.  When the operation prints a
    report without filter, it prints one with any filter, and that one
    is the report without filter from which the rows whose identifier
    ([name-version]) does not start with the filter have been removed;
    the rows kept are in the same order. *)
Theorem filtered_report_is_sub_report (w : World) (f : str)
    (tbl_all : table) :
  printed (snd (run w None)) = Some tbl_all ->
  exists tbl_f,
    printed (snd (run w (Some f))) = Some tbl_f /\
    rows tbl_f =
    filter (fun r => startswith (row_identifier r) f) (rows tbl_all).
Proof.
  intros Hp. apply run_printed in Hp.
  destruct Hp as (Hok & releases & Hj & Hall & _ & ->).
  assert (E : filter (selected None) releases = releases).
  { clear. induction releases as [|r l IH]; simpl; congruence. }
  rewrite E in Hall.
  destruct (@run_well_formed w (Some f) releases Hok Hj
              (Forall_filter (selected (Some f)) Hall)) as [_ Hf].
  eexists. split; [exact Hf|].
  unfold rows. cbn [tl].
  assert (Hnone : retained None releases = map parts_of releases)
    by reflexivity.
  assert (Hsome : retained (Some f) releases =
                  filter (fun parts => startswith (join hyphen parts) f)
                         (map parts_of releases)).
  { rewrite retained_spec, filter_map_swap. f_equal.
    apply filter_ext. intros r. unfold parts_of. simpl.
    now rewrite join_split. }
  rewrite Hsome, Hnone, sort_releases_filter, filter_map_swap.
  f_equal. apply filter_ext_in. intros parts Hin.
  assert (Htwo : Forall (fun parts => length parts = 2)
                        (sort_releases (map parts_of releases))).
  { apply sort_releases_two. rewrite Forall_map.
    revert Hall. apply Forall_impl. intros r [Hw _].
    now apply parts_of_two. }
  rewrite Forall_forall in Htwo. specialize (Htwo parts Hin).
  destruct parts as [|n [|v [|x parts]]]; try discriminate.
  reflexivity.
Qed.

Lemma filtered_report_is_sub_report_witness :
  exists tbl_f,
    printed (snd (run three_models_world (Some (of_string "en_core"))))
    = Some tbl_f /\
    rows tbl_f =
    filter (fun r => startswith (row_identifier r) (of_string "en_core"))
           [mk_row "en_core_web_md" None "2.3.1";
            mk_row "en_core_web_sm" (Some "2.2.0"%string) "2.3.1";
            mk_row "fr_core_news_sm" None "2.3.0"].
Proof.
  apply (@filtered_report_is_sub_report three_models_world
           (of_string "en_core")
           [header; mk_row "en_core_web_md" None "2.3.1";
            mk_row "en_core_web_sm" (Some "2.2.0"%string) "2.3.1";
            mk_row "fr_core_news_sm" None "2.3.0"]
           eq_refl).
Defined.

End ReconcileMore.

(** ** [validate_version_string], further *)

Section VersionStringMore.
Variable isdecimal : char -> bool.
Variables (C P : Type) (ctx : C) (param : P).

Local Abbreviation validate :=
  (validate_version_string isdecimal ctx param).

(** Acceptance, by the pattern: a prefix of the worded shape. *)
Lemma validate_returns (value : str) :
  validate value = Returned value <-> starts_with_version isdecimal value.
Proof.
  unfold validate_version_string.
  rewrite <- re_match_version.
  destruct (Re.re_match (version_pattern isdecimal) value); simpl;
    split; congruence.
Qed.

Lemma validate_raises (value : str) :
  validate value = Raised (BadParameter value) <->
  ~ starts_with_version isdecimal value.
Proof.
  rewrite <- validate_returns. unfold validate_version_string.
  destruct (Re.re_match (version_pattern isdecimal) value); simpl;
    split; congruence.
Qed.

(** Only the first two components count. *)
Lemma starts_with_version_short (value : str) :
  starts_with_version isdecimal value <->
  exists ds c rest,
    digits isdecimal ds /\ isdecimal c = true /\
    value = ds ++ dot :: c :: rest.
Proof.
  split.
  - intros (p & rest & -> & ds & groups & Hds & Hne & Hg & ->).
    destruct Hg as [|g groups (ds' & -> & [Hne' Hds']) _]; [congruence|].
    destruct Hds' as [|c ds' Hc _]; [congruence|].
    exists ds, c, (ds' ++ List.concat groups ++ rest).
    split; [exact Hds | split; [exact Hc|]].
    simpl. rewrite <- !app_assoc. simpl. rewrite <- ?app_assoc.
    reflexivity.
  - intros (ds & c & rest & Hds & Hc & ->).
    exists (ds ++ [dot; c]), rest. split.
    + now rewrite <- app_assoc.
    + exists ds, [[dot; c]].
      split; [exact Hds | split; [discriminate | split; [|reflexivity]]].
      repeat constructor. exists [c].
      split; [reflexivity | split; [discriminate | now repeat constructor]].
Qed.

End VersionStringMore.

(** X7.  A version string is accepted exactly when it begins with one or
    more digits, a dot and one more digit: the first two components
    decide, and nothing after them is looked at. *)
Theorem version_accepted_iff (isdecimal : char -> bool) (C P : Type)
    (ctx : C) (param : P) (value : str) :
  validate_version_string isdecimal ctx param value = Returned value <->
  exists ds c rest,
    digits isdecimal ds /\ isdecimal c = true /\
    value = ds ++ dot :: c :: rest.
Proof.
  rewrite validate_returns. apply starts_with_version_short.
Qed.

Lemma version_accepted_iff_witness :
  validate_version_string ascii_digit tt tt (of_string "10.4-beta") =
  Returned (of_string "10.4-beta").
Proof.
  apply (proj2 (version_accepted_iff ascii_digit tt tt
                  (of_string "10.4-beta"))).
  exists (of_string "10"), 52%N, (of_string "-beta").
  repeat split; try discriminate. repeat constructor.
Defined.

(** X8.  Acceptance is closed under extension: whatever is appended to
    an accepted string, the result is accepted and returned unchanged.
    The validation therefore puts no bound on what follows the
    version. *)
Theorem version_accepts_any_suffix (isdecimal : char -> bool)
    (C P : Type) (ctx : C) (param : P) (value suffix : str) :
  validate_version_string isdecimal ctx param value = Returned value ->
  validate_version_string isdecimal ctx param (value ++ suffix) =
  Returned (value ++ suffix).
Proof.
  rewrite !validate_returns.
  intros (p & rest & -> & Hp). exists p, (rest ++ suffix).
  split; [now rewrite app_assoc | exact Hp].
Qed.

Lemma version_accepts_any_suffix_witness :
  validate_version_string ascii_digit tt tt
    (of_string "2.3.1" ++ of_string " --force") =
  Returned (of_string "2.3.1" ++ of_string " --force").
Proof.
  apply (@version_accepts_any_suffix ascii_digit unit unit tt tt
           (of_string "2.3.1") (of_string " --force")).
  reflexivity.
Defined.

(** X9.  A string is rejected, with [BadParameter] carrying the string
    itself, whenever it is empty, or its first character is not a digit
    (a sign, a space, a letter), or it has no dot, or it has fewer than
    three characters. *)
Theorem version_rejected (isdecimal : char -> bool) (C P : Type)
    (ctx : C) (param : P) (value : str) :
  value = [] \/
  (exists c s, value = c :: s /\ isdecimal c = false) \/
  ~ In dot value \/
  length value < 3 ->
  validate_version_string isdecimal ctx param value =
  Raised (BadParameter value).
Proof.
  intros H. apply validate_raises. intros Hv.
  pose proof (version_min_length Hv) as Hlen.
  pose proof (version_first_digit Hv) as (c & s & E & Hc).
  apply starts_with_version_short in Hv.
  destruct Hv as (ds & d & rest & _ & _ & Ed).
  destruct H as [H|[(c' & s' & E' & Hc')|[H|H]]].
  - subst value. discriminate.
  - rewrite E in E'. injection E' as <- _. congruence.
  - apply H. rewrite Ed. apply in_or_app. right. now left.
  - lia.
Qed.

Lemma version_rejected_witness :
  validate_version_string ascii_digit tt tt (of_string "-1.2") =
  Raised (BadParameter (of_string "-1.2")) /\
  validate_version_string ascii_digit tt tt (of_string "2020") =
  Raised (BadParameter (of_string "2020")).
Proof.
  split.
  - apply (@version_rejected ascii_digit unit unit tt tt
             (of_string "-1.2")).
    right. left. exists 45%N, (of_string "1.2"). now split.
  - apply (@version_rejected ascii_digit unit unit tt tt
             (of_string "2020")).
    right. right. left. simpl. intuition discriminate.
Defined.

(** ** [MockContext] *)

(** X10.  [MockContext] is a context manager that does nothing: a [with]
    block over it, whatever keyword arguments it was built from, ends
    exactly as its body does, with the same trace; an exception raised in
    the body is never swallowed.  Every attribute of the object reads
    [None], the names of the keyword arguments included. *)
Theorem mock_context_is_transparent (V A : Type)
    (kwargs : list (str * V)) (body : MockContext -> M A)
    (t : list event) :
  with_ MockContext_enter MockContext_exit (MockContext_init kwargs) body t =
  (match fst (body (MockContext_init kwargs) t) with
   | Returned a => Returned (Some a)
   | Raised e => Raised e
   end,
   snd (body (MockContext_init kwargs) t)) /\
  forall item,
    @MockContext_getattribute V (MockContext_init kwargs) item = None.
Proof.
  split; [|reflexivity].
  unfold with_, MockContext_enter, MockContext_exit, MockContext_init, ret.
  destruct (body mock_context t) as [[a|e] t']; reflexivity.
Qed.

(** ** [validate_out_path], further *)

(** X11.  The error names the path: two refusals with the same message
    are refusals of the same path. *)
Theorem refusal_names_the_path (C P : Type) (ctx : C) (param : P)
    (value1 value2 : Path) (fs1 fs2 : FileSystem) (message : str) :
  fst (validate_out_path ctx param value1 fs1) =
  Raised (BadParameter message) ->
  fst (validate_out_path ctx param value2 fs2) =
  Raised (BadParameter message) ->
  value1 = value2.
Proof.
  unfold validate_out_path, is_file.
  destruct (fs1 value1) as [[| |]|errno1|];
    try destruct (ignore_error errno1); try discriminate.
  destruct (fs2 value2) as [[| |]|errno2|];
    try destruct (ignore_error errno2); try discriminate.
  simpl. intros H1 H2. rewrite <- H1 in H2. injection H2 as H.
  apply app_inv_tail in H.
  destruct value1, value2. simpl in H. now subst.
Qed.

Lemma refusal_names_the_path_witness :
  {| path_str := of_string "out.db" |} = {| path_str := of_string "out.db" |}.
Proof.
  apply (@refusal_names_the_path unit unit tt tt
           {| path_str := of_string "out.db" |}
           {| path_str := of_string "out.db" |}
           example_fs example_fs
           (of_string "File " ++ [dquote] ++ of_string "out.db"
              ++ [dquote] ++ of_string " already exists."));
    reflexivity.
Defined.
